(** * Reservation reconciler of [aws_reports/reserved_instance.py]

    A shallow embedding of the script that matches running EC2 instances
    against active reserved instances per (instance type, region) key, and
    the properties of its three output buckets and two totals.

    Python's [int] is unbounded and is modelled by [Z]; [str] by [string];
    the three [defaultdict]s and the plain [dict]s by [gmap] over pairs of
    strings.  The records returned by the two EC2 describe calls are taken
    as typed records; a key the script tests with [in] is an [option].
    The [state = active] and [instance-state-name = running] filters are
    applied by the describe calls, so the inputs arrive filtered. *)

From stdpp Require Import gmap strings list fin_maps relations pretty sorting.

Local Open Scope Z_scope.

(** ** Input records *)

(** One element of [reservation["Instances"]]. *)
Record Instance := {
  InstanceId : string;
  InstanceType : string;
  AvailabilityZone : string;              (* instance["Placement"]["AvailabilityZone"] *)
  SpotInstanceRequestId : option string   (* key present only for spot instances *)
}.

(** One element of [reservations["ReservedInstances"]]. *)
Record ReservedInstance := {
  ri_InstanceType : string;
  ri_AvailabilityZone : option string;    (* key absent for regional reservations *)
  ri_Scope : option string;
  ri_InstanceCount : Z
}.

(** What the script reads from its environment: the two describe responses
    and [session.region_name], the region the session is configured with. *)
Record Input := {
  Reservations : list (list Instance);    (* each reservation's "Instances" *)
  ReservedInstances : list ReservedInstance;
  region_name : string
}.

Abbreviation key := (string * string)%type.

(** ** Python primitives *)

(** [s[:-1]]: everything but the last character; the empty string stays
    empty. *)
Fixpoint slice_to_last (s : string) : string :=
  match s with
  | EmptyString => EmptyString
  | String c s' =>
      match s' with
      | EmptyString => EmptyString
      | String _ _ => String c (slice_to_last s')
      end
  end.

(** [d.get(k, dflt)], which is also what [d[k]] reads on a [defaultdict]. *)
Definition dict_get {V} (dflt : V) (d : gmap key V) (k : key) : V :=
  default dflt (d !! k).

(** [d[k] += n] on a [defaultdict(int)]. *)
Definition dict_add (d : gmap key Z) (k : key) (n : Z) : gmap key Z :=
  <[k := dict_get 0 d k + n]> d.

(** [d[k].append(x)] on a [defaultdict(list)]. *)
Definition dict_append (d : gmap key (list string)) (k : key) (x : string)
  : gmap key (list string) :=
  <[k := dict_get [] d k ++ [x]]> d.

(** [sum(d.values())]. *)
Definition sum_values (d : gmap key Z) : Z :=
  map_fold (λ _ v acc, acc + v) 0 d.

(** ** The script's variables and statements *)

Record store := {
  running_instances : gmap key Z;
  instance_mapping : gmap key (list string);
  reserved_instances : gmap key Z;
  stderr : list string
}.

Definition initial_store : store :=
  {| running_instances := ∅; instance_mapping := ∅;
     reserved_instances := ∅; stderr := [] |}.

Definition is_spot (instance : Instance) : bool :=
  match SpotInstanceRequestId instance with Some _ => true | None => false end.

Definition instance_key (instance : Instance) : key :=
  (InstanceType instance, slice_to_last (AvailabilityZone instance)).

Definition disqualifying (instance : Instance) : string :=
  "Disqualifying instance " +:+ InstanceId instance +:+ ": spot" +:+
  String (Ascii.ascii_of_nat 10) EmptyString.

(** Body of the loop over running instances (lines 30-37). *)
Definition scan_instance (st : store) (instance : Instance) : store :=
  if is_spot instance then
    {| running_instances := running_instances st;
       instance_mapping := instance_mapping st;
       reserved_instances := reserved_instances st;
       stderr := stderr st ++ [disqualifying instance] |}
  else
    {| running_instances := dict_add (running_instances st) (instance_key instance) 1;
       instance_mapping :=
         dict_append (instance_mapping st) (instance_key instance) (InstanceId instance);
       reserved_instances := reserved_instances st;
       stderr := stderr st |}.

(** The region of a reserved instance (lines 47-52).  The first test is
    [("AvailabilityZone" in ri) and ri["AvailabilityZone"]]: the key is
    there and its string is not empty. *)
Definition reserved_region (session_region : string) (ri : ReservedInstance) : string :=
  match ri_AvailabilityZone ri with
  | Some (String _ _ as az) => slice_to_last az
  | _ =>
      match ri_Scope ri with
      | Some scope => if decide (scope = "Region") then session_region else "Unknown"
      | None => "Unknown"
      end
  end.

Definition reserved_key (session_region : string) (ri : ReservedInstance) : key :=
  (ri_InstanceType ri, reserved_region session_region ri).

(** Body of the loop over reserved instances (lines 44-54). *)
Definition reserve (session_region : string) (st : store) (ri : ReservedInstance) : store :=
  {| running_instances := running_instances st;
     instance_mapping := instance_mapping st;
     reserved_instances :=
       dict_add (reserved_instances st) (reserved_key session_region ri)
                (ri_InstanceCount ri);
     stderr := stderr st |}.

(** Lines 57-62: the comprehension over the reserved keys, then the loop
    over the running keys that are not reserved. *)
Definition instance_diff (reserved running : gmap key Z) : gmap key Z :=
  map_fold
    (λ placement_key v diff,
       if decide (reserved !! placement_key = None)
       then <[placement_key := - v]> diff
       else diff)
    (map_imap (λ x v, Some (v - dict_get 0 running x)) reserved)
    running.

(** Lines 65, 73 and 81. *)
Definition unused_reservations (diff : gmap key Z) : gmap key Z :=
  filter (λ kv, 0 < kv.2) diff.

Definition unreserved_instances (diff : gmap key Z) : gmap key Z :=
  Z.opp <$> filter (λ kv, kv.2 < 0) diff.

Definition used_reservations (diff : gmap key Z) : gmap key Z :=
  filter (λ kv, kv.2 = 0) diff.

(** [instance_mapping.get(key, ["N/A"])] (line 85). *)
Definition instance_list (mapping : gmap key (list string)) (k : key) : list string :=
  default ["N/A"] (mapping !! k).

(** What the script reports: the three buckets, the instance list printed
    with each used reservation, the two totals and the standard error log.
    The order of the printed lines is not modelled. *)
Record report := {
  unused : gmap key Z;
  unreserved : gmap key Z;
  used : gmap key Z;
  used_instances : gmap key (list string);
  qty_running_instances : Z;
  qty_reserved_instances : Z;
  disqualified : list string
}.

Definition summarise (st : store) : report :=
  let diff := instance_diff (reserved_instances st) (running_instances st) in
  {| unused := unused_reservations diff;
     unreserved := unreserved_instances diff;
     used := used_reservations diff;
     used_instances :=
       map_imap (λ k _, Some (instance_list (instance_mapping st) k))
                (used_reservations diff);
     qty_running_instances := sum_values (running_instances st);
     qty_reserved_instances := sum_values (reserved_instances st);
     disqualified := stderr st |}.

Definition scan_all (st : store) (groups : list (list Instance)) : store :=
  foldl (foldl scan_instance) st groups.

Definition reserve_all (session_region : string) (st : store)
    (ris : list ReservedInstance) : store :=
  foldl (reserve session_region) st ris.

Definition final_store (input : Input) : store :=
  reserve_all (region_name input)
    (scan_all initial_store (Reservations input)) (ReservedInstances input).

Definition reconcile (input : Input) : report :=
  summarise (final_store input).

(** The dictionary [instance_diff] the script ends up with. *)
Definition final_diff (input : Input) : gmap key Z :=
  instance_diff (reserved_instances (final_store input))
                (running_instances (final_store input)).

(** ** The script as a transition system

    One step is one turn of a loop or the move from one loop to the next.
    None of the statements can raise on typed records (slicing, [get],
    reading a [defaultdict] and integer arithmetic are total), so there is
    no error configuration: failing would show as a configuration that is
    not the report and has no next step. *)

Inductive config :=
| Scanning (instances : list Instance) (rest : list (list Instance)) (st : store)
| Reserving (ris : list ReservedInstance) (st : store)
| Reported (r : report).

Inductive step (input : Input) : config → config → Prop :=
| step_instance i instances rest st :
    step input (Scanning (i :: instances) rest st)
               (Scanning instances rest (scan_instance st i))
| step_reservation instances rest st :
    step input (Scanning [] (instances :: rest) st) (Scanning instances rest st)
| step_describe_reserved st :
    step input (Scanning [] [] st) (Reserving (ReservedInstances input) st)
| step_reserved ri ris st :
    step input (Reserving (ri :: ris) st)
               (Reserving ris (reserve (region_name input) st ri))
| step_report st :
    step input (Reserving [] st) (Reported (summarise st)).

Definition initial_config (input : Input) : config :=
  Scanning [] (Reservations input) initial_store.

Definition reconciles (input : Input) (r : report) : Prop :=
  rtc (step input) (initial_config input) (Reported r).

(** How many steps a configuration is away from the report. *)
Definition steps_left (input : Input) (c : config) : nat :=
  match c with
  | Scanning instances rest _ =>
      length instances + sum_list_with (λ g, S (length g)) rest
      + S (S (length (ReservedInstances input)))
  | Reserving ris _ => S (length ris)
  | Reported _ => 0
  end.

(** ** The aggregates of the specification *)

Definition all_instances (input : Input) : list Instance :=
  concat (Reservations input).

(** The running instances that are not spot and fall under key [k]. *)
Definition on_demand_at (k : key) (l : list Instance) : list Instance :=
  filter (λ i, is_spot i = false ∧ instance_key i = k) l.

(** The reserved instances that fall under key [k]. *)
Definition reserved_at (session_region : string) (k : key)
    (ris : list ReservedInstance) : list ReservedInstance :=
  filter (λ ri, reserved_key session_region ri = k) ris.

Definition total_count (ris : list ReservedInstance) : Z :=
  foldr (λ ri acc, ri_InstanceCount ri + acc) 0 ris.

Definition running_count (input : Input) (k : key) : Z :=
  Z.of_nat (length (on_demand_at k (all_instances input))).

Definition reserved_count (input : Input) (k : key) : Z :=
  total_count (reserved_at (region_name input) k (ReservedInstances input)).

(** A dictionary holds a key only once something was stored under it. *)
Definition entry {A B} (f : list A → B) (l : list A) : option B :=
  match l with [] => None | _ :: _ => Some (f l) end.

(** The entry of [instance_diff] at a key, from the two entries there. *)
Definition diff_entry (reserved running : option Z) : option Z :=
  match reserved, running with
  | Some r, Some v => Some (r - v)
  | Some r, None => Some (r - 0)
  | None, Some v => Some (- v)
  | None, None => None
  end.

(** The input without its spot instances. *)
Definition drop_spot (input : Input) : Input :=
  {| Reservations := filter (λ i, is_spot i = false) <$> Reservations input;
     ReservedInstances := ReservedInstances input;
     region_name := region_name input |}.

(** Well-formed input: counts of at least one, instance types that are not
    empty, availability zones of at least two characters. *)
Definition well_formed (input : Input) : Prop :=
  Forall (λ ri, 1 ≤ ri_InstanceCount ri ∧ ri_InstanceType ri ≠ "" ∧
                ∀ az, ri_AvailabilityZone ri = Some az → (2 ≤ String.length az)%nat)
         (ReservedInstances input) ∧
  Forall (λ i, InstanceType i ≠ "" ∧ (2 ≤ String.length (AvailabilityZone i))%nat)
         (all_instances input).

(** The region rule in the specification's words: an availability zone
    that is present is stripped of its last character, whatever it holds. *)
Definition spec_reserved_region (session_region : string) (ri : ReservedInstance)
  : string :=
  match ri_AvailabilityZone ri with
  | Some az => slice_to_last az
  | None =>
      match ri_Scope ri with
      | Some scope => if decide (scope = "Region") then session_region else "Unknown"
      | None => "Unknown"
      end
  end.

(** ** Sample inputs *)

Definition on_demand (id type zone : string) : Instance :=
  {| InstanceId := id; InstanceType := type; AvailabilityZone := zone;
     SpotInstanceRequestId := None |}.

Definition spot (id type zone request : string) : Instance :=
  {| InstanceId := id; InstanceType := type; AvailabilityZone := zone;
     SpotInstanceRequestId := Some request |}.

Definition zonal (type zone : string) (count : Z) : ReservedInstance :=
  {| ri_InstanceType := type; ri_AvailabilityZone := Some zone;
     ri_Scope := Some "Availability Zone"; ri_InstanceCount := count |}.

Definition regional (type : string) (count : Z) : ReservedInstance :=
  {| ri_InstanceType := type; ri_AvailabilityZone := None;
     ri_Scope := Some "Region"; ri_InstanceCount := count |}.

(** Three on-demand and one spot [m5.large] in eu-west-1 against a
    regional reservation of two. *)
Definition example_unreserved : Input :=
  {| Reservations :=
       [ [on_demand "i-01" "m5.large" "eu-west-1a";
          on_demand "i-02" "m5.large" "eu-west-1b"];
         [on_demand "i-03" "m5.large" "eu-west-1a";
          spot "i-04" "m5.large" "eu-west-1a" "sir-1"] ];
     ReservedInstances := [regional "m5.large" 2];
     region_name := "eu-west-1" |}.

(** Two [c5.xlarge] in us-east-1 against a reservation of two. *)
Definition example_exact : Input :=
  {| Reservations :=
       [ [on_demand "i-11" "c5.xlarge" "us-east-1a"];
         [on_demand "i-12" "c5.xlarge" "us-east-1c"] ];
     ReservedInstances := [zonal "c5.xlarge" "us-east-1a" 2];
     region_name := "us-east-1" |}.

(** Nothing running against a reservation of five [t3.micro]. *)
Definition example_unused : Input :=
  {| Reservations := [];
     ReservedInstances := [zonal "t3.micro" "ap-south-1b" 5];
     region_name := "eu-west-1" |}.

(** A regional reservation whose availability zone is present but empty. *)
Definition empty_zone_reservation : ReservedInstance :=
  {| ri_InstanceType := "t3.micro"; ri_AvailabilityZone := Some "";
     ri_Scope := Some "Region"; ri_InstanceCount := 1 |}.

(** ** Dictionaries in insertion order, and what the script prints

    A Python [dict] iterates in insertion order: storing under a key that
    is there keeps its place, storing under a new key puts it last.  The
    printed lines follow that order, so the printing part of the script
    (lines 64-94) is modelled on association lists. *)

Section odict.
Context {K V : Type} `{EqDecision K}.

(** [d.get(k)], [None] when the key is missing. *)
Fixpoint od_lookup (k : K) (d : list (K * V)) : option V :=
  match d with
  | [] => None
  | (k', v) :: d' => if decide (k' = k) then Some v else od_lookup k d'
  end.

(** [d[k] = v]. *)
Fixpoint od_store (k : K) (v : V) (d : list (K * V)) : list (K * V) :=
  match d with
  | [] => [(k, v)]
  | (k', v') :: d' =>
      if decide (k' = k) then (k', v) :: d' else (k', v') :: od_store k v d'
  end.

(** [{k: v for (k, v) in items}]. *)
Definition od_of_items (items : list (K * V)) : list (K * V) :=
  foldl (λ d kv, od_store kv.1 kv.2 d) [] items.

(** The elements of a list, each at its first occurrence. *)
Fixpoint first_occurrences (l : list K) : list K :=
  match l with
  | [] => []
  | x :: l' => x :: filter (λ y, y ≠ x) (first_occurrences l')
  end.

End odict.

(** [d[k] += n] on a [defaultdict(int)]. *)
Definition count_item (d : list (key * Z)) (k : key) (n : Z) : list (key * Z) :=
  od_store k (default 0 (od_lookup k d) + n) d.

(** [d[k].append(x)] on a [defaultdict(list)]. *)
Definition append_item (d : list (key * list string)) (k : key) (x : string)
  : list (key * list string) :=
  od_store k (default [] (od_lookup k d) ++ [x]) d.

(** Lines 28-37, 43-54. *)
Definition running_items (l : list Instance) : list (key * Z) :=
  foldl (λ d i, if is_spot i then d else count_item d (instance_key i) 1) [] l.

Definition mapping_items (l : list Instance) : list (key * list string) :=
  foldl (λ d i, if is_spot i then d
                else append_item d (instance_key i) (InstanceId i)) [] l.

Definition reserved_items (session_region : string) (ris : list ReservedInstance)
  : list (key * Z) :=
  foldl (λ d ri, count_item d (reserved_key session_region ri) (ri_InstanceCount ri))
        [] ris.

(** Lines 57-62. *)
Definition diff_items (reserved running : list (key * Z)) : list (key * Z) :=
  foldl
    (λ diff placement_key,
       if decide (od_lookup placement_key reserved = None)
       then od_store placement_key
                     (- default 0 (od_lookup placement_key running)) diff
       else diff)
    (od_of_items
       ((λ x, (x, default 0 (od_lookup x reserved)
                  - default 0 (od_lookup x running))) <$> reserved.*1))
    running.*1.

(** Lines 65, 73, 81. *)
Definition unused_items (diff : list (key * Z)) : list (key * Z) :=
  od_of_items (filter (λ kv, 0 < kv.2) diff).

Definition unreserved_items (diff : list (key * Z)) : list (key * Z) :=
  od_of_items ((λ kv, (kv.1, - kv.2)) <$> filter (λ kv, kv.2 < 0) diff).

Definition used_items (diff : list (key * Z)) : list (key * Z) :=
  od_of_items (filter (λ kv, kv.2 = 0) diff).

Definition newline : string := String (Ascii.ascii_of_nat 10) EmptyString.

Definition unused_line (kv : key * Z) : string :=
  "UNUSED RESERVATION! (" +:+ pretty kv.2 +:+ ") " +:+ kv.1.1 +:+ " " +:+ kv.1.2.

Definition unreserved_line (kv : key * Z) : string :=
  "Instance not reserved: (" +:+ pretty kv.2 +:+ ") " +:+ kv.1.1 +:+ " " +:+ kv.1.2.

Definition used_line (mapping : list (key * list string)) (kv : key * Z) : string :=
  "Reserved Instances (" +:+ kv.1.1 +:+ " " +:+ kv.1.2 +:+ "): " +:+
  String.concat ", " (default ["N/A"] (od_lookup kv.1 mapping)).

(** Lines 66-70. *)
Definition unused_lines (bucket : list (key * Z)) : list string :=
  match bucket with
  | [] => ["Congratulations, you have no unused reservations"]
  | _ :: _ => unused_line <$> bucket
  end.

(** Lines 74-78. *)
Definition unreserved_lines (bucket : list (key * Z)) : list string :=
  match bucket with
  | [] => ["Congratulations, you have no unreserved instances"]
  | _ :: _ => unreserved_line <$> bucket
  end.

(** Lines 82-88. *)
Definition used_lines (mapping : list (key * list string)) (bucket : list (key * Z))
  : list string :=
  match bucket with
  | [] => [newline +:+ "No used reservations found"]
  | _ :: _ => (newline +:+ "Used Reservations:") :: (used_line mapping <$> bucket)
  end.

(** Line 94. *)
Definition summary_line (running reserved : list (key * Z)) : string :=
  newline +:+ "(" +:+ pretty (foldl Z.add 0 running.*2) +:+
  ") running on-demand instances" +:+ newline +:+
  "(" +:+ pretty (foldl Z.add 0 reserved.*2) +:+ ") reservations".

(** The arguments of the calls of [print], in order. *)
Definition stdout (input : Input) : list string :=
  let running := running_items (all_instances input) in
  let mapping := mapping_items (all_instances input) in
  let reserved := reserved_items (region_name input) (ReservedInstances input) in
  let diff := diff_items reserved running in
  unused_lines (unused_items diff) ++
  unreserved_lines (unreserved_items diff) ++
  used_lines mapping (used_items diff) ++
  [summary_line running reserved].

(** The dictionary [instance_diff], in the order the script iterates it. *)
Definition printed_diff (input : Input) : list (key * Z) :=
  diff_items (reserved_items (region_name input) (ReservedInstances input))
             (running_items (all_instances input)).

(** ** Calls of the AWS API

    The other scripts wrap their API calls in [try]/[except].  A call either
    returns its response or raises one of botocore's exceptions; the scripts
    tell four of them apart.  [ClientError] is not a [BotoCoreError], the
    other two are subclasses of it. *)

Inductive exn :=
  | ClientError (code : string)
  | NoCredentialsError
  | EndpointConnectionError
  | BotoCoreError.

Inductive result (A : Type) :=
  | Return (a : A)
  | Raise (e : exn).
Arguments Return {A} a.
Arguments Raise {A} e.

Definition bind {A B} (m : result A) (f : A → result B) : result B :=
  match m with
  | Return a => f a
  | Raise e => Raise e
  end.

Notation "x ←! m ; f" := (bind m (λ x, f))
  (at level 20, m at level 100, f at level 200, right associativity,
   only parsing).

(** A loop whose body may raise: the first exception ends it. *)
Fixpoint for_each {A B} (f : A → result (list B)) (l : list A) : result (list B) :=
  match l with
  | [] => Return []
  | x :: l' => rows ←! f x; rest ←! for_each f l'; Return (rows ++ rest)
  end.

Definition is_ClientError (e : exn) : bool :=
  match e with ClientError _ => true | _ => false end.

Definition is_BotoCoreError (e : exn) : bool :=
  match e with ClientError _ => false | _ => true end.

(** [try: m  except <caught>: return handler]. *)
Definition try_except {A} (m : result A) (caught : exn → bool) (handler : A)
  : result A :=
  match m with
  | Return a => Return a
  | Raise e => if caught e then Return handler else Raise e
  end.

(** ** aws_externally_exposed.py *)

Module aws_externally_exposed.

Record IpRange := { CidrIp : option string }.

Record IpPermission := { IpRanges : option (list IpRange) }.

Record SecurityGroup := {
  GroupId : string;
  GroupName : option string;
  IpPermissions : option (list IpPermission) }.

Record NaclEntry := {
  CidrBlock : option string;
  Ipv6CidrBlock : option string;
  RuleAction : option string;
  RuleNumber : option Z }.

Record NetworkAcl := {
  NetworkAclId : string;
  Entries : option (list NaclEntry) }.

Record Instance := {
  InstanceId : string;
  PublicIpAddress : option string }.

Record PublicAccessBlockConfiguration := {
  BlockPublicAcls : option bool;
  RestrictPublicBuckets : option bool }.

(** The responses a session gives; the regional calls take the region. *)
Record Session := {
  describe_regions : result (list string);
  describe_security_groups : string → result (list SecurityGroup);
  describe_network_acls : string → result (list NetworkAcl);
  describe_instances : string → result (list (list Instance));
  list_buckets : result (list string);
  get_public_access_block : string → result (option PublicAccessBlockConfiguration) }.

(** A row of the report: a Python list of five strings. *)
Abbreviation row := (list string).

(** Lines 25-32. *)
Definition get_regions (session : Session) : result (list string) :=
  try_except (describe_regions session)
    (λ e, match e with
          | ClientError _ | NoCredentialsError | EndpointConnectionError => true
          | BotoCoreError => false
          end) [].

(** Lines 34-48. *)
Definition security_group_row (region : string) (sg : SecurityGroup) : row :=
  ["Security Group"; GroupId sg; default "N/A" (GroupName sg);
   "Allows 0.0.0.0/0"; region].

Definition get_exposed_security_groups (session : Session) (region : string)
  : result (list row) :=
  try_except
    (security_groups ←! describe_security_groups session region;
     Return (sg ← security_groups;
             rule ← default [] (IpPermissions sg);
             ip ← default [] (IpRanges rule);
             if decide (CidrIp ip = Some "0.0.0.0/0")
             then [security_group_row region sg] else []))
    is_ClientError [].

(** Line 62: [entry.get('CidrBlock', entry.get('Ipv6CidrBlock'))]. *)
Definition entry_cidr (entry : NaclEntry) : option string :=
  match CidrBlock entry with
  | Some cidr => Some cidr
  | None => Ipv6CidrBlock entry
  end.

(** Lines 61-69: [allow_rules] is a dict, [deny_rules] a set. *)
Definition scan_entry
    (rules : list (option string * option Z) * gset (option string))
    (entry : NaclEntry) : list (option string * option Z) * gset (option string) :=
  let cidr := entry_cidr entry in
  if decide (RuleAction entry = Some "deny") then (rules.1, rules.2 ∪ {[cidr]})
  else if decide (RuleAction entry = Some "allow")
       then (od_store cidr (RuleNumber entry) rules.1, rules.2)
       else rules.

Definition allows (entry : NaclEntry) : Prop := RuleAction entry = Some "allow".
Definition denies (entry : NaclEntry) : Prop := RuleAction entry = Some "deny".

#[global] Instance allows_dec entry : Decision (allows entry).
Proof. unfold allows. apply _. Defined.
#[global] Instance denies_dec entry : Decision (denies entry).
Proof. unfold denies. apply _. Defined.

(** [f'{cidr}']: a missing block is printed as [None]. *)
Definition cidr_str (cidr : option string) : string := default "None" cidr.

Definition network_acl_row (region : string) (nacl : NetworkAcl)
    (cidr : option string) : row :=
  ["Network ACL"; NetworkAclId nacl; "N/A"; "Allows " +:+ cidr_str cidr; region].

(** Lines 57-73, one turn of the outer loop. *)
Definition network_acl_rows (region : string) (nacl : NetworkAcl) : list row :=
  let rules := foldl scan_entry ([], ∅) (default [] (Entries nacl)) in
  (λ rule, network_acl_row region nacl rule.1)
    <$> filter (λ rule, rule.1 ∉ rules.2) rules.1.

(** The blocks reported for a list of entries. *)
Definition reported (entries : list NaclEntry) : list (option string) :=
  (filter (λ rule : option string * option Z,
             rule.1 ∉ (foldl scan_entry ([], ∅) entries).2)
          (foldl scan_entry ([], ∅) entries).1).*1.

(** Lines 50-78. *)
Definition get_exposed_network_acls (session : Session) (region : string)
  : result (list row) :=
  try_except
    (network_acls ←! describe_network_acls session region;
     Return (nacl ← network_acls; network_acl_rows region nacl))
    is_ClientError [].

(** Lines 80-93. *)
Definition get_exposed_ec2_instances (session : Session) (region : string)
  : result (list row) :=
  try_except
    (instances ←! describe_instances session region;
     Return (reservation ← instances;
             instance ← reservation;
             match PublicIpAddress instance with
             | Some ip => [["EC2 Instance"; InstanceId instance; "N/A";
                            "Public IP: " +:+ ip; region]]
             | None => []
             end))
    is_ClientError [].

(** Lines 103-110, one turn of the loop. *)
Definition bucket_rows (session : Session) (bucket_name : string)
  : result (list row) :=
  match get_public_access_block session bucket_name with
  | Return acl =>
      let block_public_acls := default true (acl ≫= BlockPublicAcls) in
      let restrict_public_buckets := default true (acl ≫= RestrictPublicBuckets) in
      if negb block_public_acls || negb restrict_public_buckets
      then Return [["S3 Bucket"; bucket_name; "N/A"; "Public Access Enabled";
                    "Global"]]
      else Return []
  | Raise (ClientError code) =>
      if decide (code = "NoSuchPublicAccessBlockConfiguration")
      then Return [["S3 Bucket"; bucket_name; "N/A";
                    "No Public Access Block Config"; "Global"]]
      else Return []
  | Raise e => Raise e
  end.

(** Lines 95-114. *)
Definition get_exposed_s3_buckets (session : Session) : result (list row) :=
  try_except
    (buckets ←! list_buckets session; for_each (bucket_rows session) buckets)
    is_ClientError [].

(** Lines 116-122. *)
Definition process_region (session : Session) (region : string)
  : result (list row) :=
  security_groups ←! get_exposed_security_groups session region;
  network_acls ←! get_exposed_network_acls session region;
  instances ←! get_exposed_ec2_instances session region;
  Return (security_groups ++ network_acls ++ instances).

(** Lines 124-140; the results of [executor.map] come in the order of the
    regions. *)
Definition process_profile (session : Session) : result (list row) :=
  regions ←! get_regions session;
  data ←! for_each (process_region session) regions;
  buckets ←! get_exposed_s3_buckets session;
  Return (data ++ buckets).


(** Two network ACLs with the same rules, numbered and listed differently. *)
Definition nacl_allow_first : NetworkAcl :=
  {| NetworkAclId := "acl-1";
     Entries := Some
       [ {| CidrBlock := Some "0.0.0.0/0"; Ipv6CidrBlock := None;
            RuleAction := Some "allow"; RuleNumber := Some 100 |};
         {| CidrBlock := Some "0.0.0.0/0"; Ipv6CidrBlock := None;
            RuleAction := Some "deny"; RuleNumber := Some 200 |};
         {| CidrBlock := None; Ipv6CidrBlock := Some "::/0";
            RuleAction := Some "allow"; RuleNumber := Some 300 |} ] |}.


End aws_externally_exposed.

(** ** Dictionary lemmas *)

Section dictionaries.
Implicit Types (d r m : gmap key Z) (k : key).

Lemma sum_values_empty : sum_values ∅ = 0.
Proof. unfold sum_values. by rewrite map_fold_empty. Qed.

Lemma sum_values_insert_fresh d k v :
  d !! k = None → sum_values (<[k := v]> d) = sum_values d + v.
Proof.
  intros Hk. unfold sum_values.
  rewrite map_fold_insert_L; [done | | done].
  intros; lia.
Qed.

Lemma sum_values_delete d k :
  sum_values d = sum_values (delete k d) + dict_get 0 d k.
Proof.
  unfold dict_get. destruct (d !! k) as [v|] eqn:Hk; simpl.
  - rewrite <- (insert_delete_id d k v) at 1 by done.
    apply sum_values_insert_fresh, lookup_delete_eq.
  - rewrite delete_id by done. lia.
Qed.

Lemma sum_values_insert d k v :
  sum_values (<[k := v]> d) = sum_values d - dict_get 0 d k + v.
Proof.
  rewrite <- insert_delete_eq.
  rewrite sum_values_insert_fresh by apply lookup_delete_eq.
  rewrite (sum_values_delete d k). lia.
Qed.

Lemma sum_values_dict_add d k n :
  sum_values (dict_add d k n) = sum_values d + n.
Proof. unfold dict_add. rewrite sum_values_insert. lia. Qed.

Lemma sum_values_opp d : sum_values (Z.opp <$> d) = - sum_values d.
Proof.
  induction d as [|k v d Hk IH] using map_ind.
  - by rewrite fmap_empty, sum_values_empty.
  - rewrite fmap_insert, !sum_values_insert_fresh, IH; [lia | done |].
    by rewrite lookup_fmap, Hk.
Qed.

Lemma instance_diff_lookup r m k :
  instance_diff r m !! k = diff_entry (r !! k) (m !! k).
Proof.
  unfold instance_diff.
  set (d0 := map_imap (λ x v, Some (v - dict_get 0 m x)) r).
  assert (Hd0 : d0 !! k = (λ v, v - dict_get 0 m k) <$> r !! k).
  { unfold d0. rewrite map_lookup_imap. by destruct (r !! k). }
  clearbody d0.
  enough (H : map_fold
      (λ placement_key v diff,
         if decide (r !! placement_key = None)
         then <[placement_key := - v]> diff else diff) d0 m !! k
    = match m !! k with
      | Some v => if decide (r !! k = None) then Some (- v) else d0 !! k
      | None => d0 !! k
      end).
  { rewrite H, Hd0. unfold dict_get.
    destruct (m !! k), (r !! k); simpl; try done; by case_decide. }
  clear Hd0. revert k.
  apply (map_fold_weak_ind (λ res (m' : gmap key Z), ∀ k,
    res !! k = match m' !! k with
               | Some v => if decide (r !! k = None) then Some (- v) else d0 !! k
               | None => d0 !! k
               end)).
  - intros k. by rewrite lookup_empty.
  - intros i x m' res Hi IH k.
    destruct (decide (i = k)) as [->|Hne].
    + rewrite lookup_insert_eq. case_decide.
      * by rewrite lookup_insert_eq.
      * by rewrite IH, Hi.
    + rewrite (lookup_insert_ne m') by done. case_decide.
      * by rewrite lookup_insert_ne, IH.
      * by rewrite IH.
Qed.

Lemma sum_values_diff r : ∀ m d,
  (∀ k, d !! k = diff_entry (r !! k) (m !! k)) →
  sum_values d = sum_values r - sum_values m.
Proof.
  induction r as [|i x r Hi IH] using map_ind; intros m d Hd.
  - assert (d = Z.opp <$> m) as ->.
    { apply map_eq; intros k. rewrite Hd, lookup_empty, lookup_fmap.
      by destruct (m !! k). }
    rewrite sum_values_opp, sum_values_empty. lia.
  - rewrite sum_values_insert_fresh by done.
    rewrite (sum_values_delete d i), (sum_values_delete m i).
    rewrite (IH (delete i m) (delete i d)).
    + unfold dict_get at 1. rewrite Hd, lookup_insert_eq.
      unfold dict_get. destruct (m !! i); simpl; lia.
    + intros k. destruct (decide (i = k)) as [->|Hne].
      * by rewrite !lookup_delete_eq, Hi.
      * rewrite !lookup_delete_ne, Hd, lookup_insert_ne by done. done.
Qed.

Lemma sum_values_instance_diff r m :
  sum_values (instance_diff r m) = sum_values r - sum_values m.
Proof. apply sum_values_diff, instance_diff_lookup. Qed.

Lemma sum_values_buckets d :
  sum_values (unused_reservations d) - sum_values (unreserved_instances d)
  = sum_values d.
Proof.
  unfold unused_reservations, unreserved_instances.
  rewrite sum_values_opp.
  induction d as [|k v d Hk IH] using map_ind.
  - by rewrite !map_filter_empty, sum_values_empty.
  - rewrite sum_values_insert_fresh by done.
    rewrite !map_filter_insert, (delete_id d k) by done. simpl.
    repeat case_decide; try lia;
      rewrite ?sum_values_insert_fresh by (by rewrite map_lookup_filter, Hk);
      lia.
Qed.

End dictionaries.

(** ** What the two loops compute *)

Lemma entry_snoc {A B} (f : list A → B) (l : list A) (x : A) :
  entry f (l ++ [x]) = Some (f (l ++ [x])).
Proof. by destruct l. Qed.

Lemma default_entry_length {A} (l : list A) :
  default 0 (entry (λ l, Z.of_nat (length l)) l) = Z.of_nat (length l).
Proof. by destruct l. Qed.

Lemma default_entry_id {A} (l : list A) : default [] (entry id l) = l.
Proof. by destruct l. Qed.

Lemma total_count_app l1 l2 :
  total_count (l1 ++ l2) = total_count l1 + total_count l2.
Proof. induction l1 as [|ri l1 IH]; simpl; [done | rewrite IH; lia]. Qed.

Lemma default_entry_total_count ris :
  default 0 (entry total_count ris) = total_count ris.
Proof. by destruct ris. Qed.

Lemma scan_all_concat st groups :
  scan_all st groups = foldl scan_instance st (concat groups).
Proof.
  unfold scan_all. revert st.
  induction groups as [|g groups IH]; intros st; simpl; [done|].
  by rewrite IH, foldl_app.
Qed.

Lemma on_demand_at_snoc k l i :
  on_demand_at k (l ++ [i])
  = on_demand_at k l ++
    (if decide (is_spot i = false ∧ instance_key i = k) then [i] else []).
Proof.
  unfold on_demand_at. by rewrite filter_app.
Qed.

Lemma reserved_at_snoc rn k ris ri :
  reserved_at rn k (ris ++ [ri])
  = reserved_at rn k ris ++ (if decide (reserved_key rn ri = k) then [ri] else []).
Proof.
  unfold reserved_at. by rewrite filter_app.
Qed.

Section loops.
Implicit Types (st : store) (l : list Instance) (ris : list ReservedInstance).

Lemma scan_reserved_instances st l :
  reserved_instances (foldl scan_instance st l) = reserved_instances st.
Proof.
  induction l as [|i l IH] using rev_ind; [done|].
  rewrite foldl_snoc. unfold scan_instance at 1. by destruct (is_spot i).
Qed.

Lemma reserve_running_instances rn st ris :
  running_instances (foldl (reserve rn) st ris) = running_instances st.
Proof. induction ris as [|ri ris IH] using rev_ind; [done|]. by rewrite foldl_snoc. Qed.

Lemma reserve_instance_mapping rn st ris :
  instance_mapping (foldl (reserve rn) st ris) = instance_mapping st.
Proof. induction ris as [|ri ris IH] using rev_ind; [done|]. by rewrite foldl_snoc. Qed.

Lemma reserve_stderr rn st ris :
  stderr (foldl (reserve rn) st ris) = stderr st.
Proof. induction ris as [|ri ris IH] using rev_ind; [done|]. by rewrite foldl_snoc. Qed.

(** The instance ids stored under a key are those of the on-demand
    instances of that key, in input order. *)
Lemma scan_instance_mapping l k :
  instance_mapping (foldl scan_instance initial_store l) !! k
  = entry id (InstanceId <$> on_demand_at k l).
Proof.
  induction l as [|i l IH] using rev_ind; [done|].
  rewrite foldl_snoc, on_demand_at_snoc. unfold scan_instance at 1.
  case_decide as Hd.
  - destruct Hd as [Hspot <-]. rewrite Hspot. simpl. unfold dict_append.
    rewrite lookup_insert_eq, fmap_app. simpl.
    unfold dict_get. rewrite IH, default_entry_id.
    by rewrite (entry_snoc id).
  - rewrite app_nil_r. destruct (is_spot i) eqn:Hspot; simpl; [done|].
    unfold dict_append. rewrite lookup_insert_ne; [done|].
    intros Hk. by apply Hd.
Qed.

(** The counter and the id list of every key move together. *)
Lemma scan_lock_step l :
  running_instances (foldl scan_instance initial_store l)
  = (λ ids, Z.of_nat (length ids))
      <$> instance_mapping (foldl scan_instance initial_store l).
Proof.
  induction l as [|i l IH] using rev_ind.
  - simpl. by rewrite fmap_empty.
  - rewrite foldl_snoc. unfold scan_instance at 1 3.
    destruct (is_spot i); simpl; [done|].
    rewrite IH. unfold dict_add, dict_append. rewrite fmap_insert. f_equal.
    unfold dict_get. rewrite lookup_fmap.
    destruct (_ !! instance_key i); simpl; rewrite ?length_app; simpl; lia.
Qed.

Lemma scan_running_instances l k :
  running_instances (foldl scan_instance initial_store l) !! k
  = entry (λ l', Z.of_nat (length l')) (on_demand_at k l).
Proof.
  rewrite scan_lock_step, lookup_fmap, scan_instance_mapping.
  destruct (on_demand_at k l); simpl; [done|].
  by rewrite length_fmap.
Qed.

Lemma scan_stderr l :
  stderr (foldl scan_instance initial_store l)
  = disqualifying <$> filter (λ i, is_spot i = true) l.
Proof.
  induction l as [|i l IH] using rev_ind; [done|].
  rewrite foldl_snoc, filter_app, fmap_app, filter_cons, filter_nil.
  unfold scan_instance at 1. destruct (is_spot i); simpl.
  - by rewrite IH.
  - by rewrite app_nil_r.
Qed.

Lemma scan_sum_values l :
  sum_values (running_instances (foldl scan_instance initial_store l))
  = Z.of_nat (length (filter (λ i, is_spot i = false) l)).
Proof.
  induction l as [|i l IH] using rev_ind.
  - simpl. by rewrite sum_values_empty.
  - rewrite foldl_snoc, filter_app, length_app, filter_cons, filter_nil.
    unfold scan_instance at 1. destruct (is_spot i); simpl.
    + rewrite IH. lia.
    + rewrite sum_values_dict_add, IH. lia.
Qed.

Lemma reserve_reserved_instances rn st ris k :
  reserved_instances st = ∅ →
  reserved_instances (foldl (reserve rn) st ris) !! k
  = entry total_count (reserved_at rn k ris).
Proof.
  intros Hst. induction ris as [|ri ris IH] using rev_ind.
  - simpl. by rewrite Hst.
  - rewrite foldl_snoc, reserved_at_snoc. simpl. unfold dict_add.
    destruct (decide (reserved_key rn ri = k)) as [->|Hne].
    + rewrite lookup_insert_eq, entry_snoc, total_count_app. simpl.
      unfold dict_get. rewrite IH, default_entry_total_count. f_equal. lia.
    + by rewrite lookup_insert_ne, app_nil_r.
Qed.

Lemma reserve_sum_values rn st ris :
  reserved_instances st = ∅ →
  sum_values (reserved_instances (foldl (reserve rn) st ris)) = total_count ris.
Proof.
  intros Hst. induction ris as [|ri ris IH] using rev_ind.
  - simpl. by rewrite Hst, sum_values_empty.
  - rewrite foldl_snoc, total_count_app. simpl.
    rewrite sum_values_dict_add, IH. lia.
Qed.

End loops.

Section final.
Variable input : Input.

Lemma final_running_instances :
  running_instances (final_store input)
  = running_instances (foldl scan_instance initial_store (all_instances input)).
Proof.
  unfold final_store, reserve_all.
  by rewrite reserve_running_instances, scan_all_concat.
Qed.

Lemma final_instance_mapping :
  instance_mapping (final_store input)
  = instance_mapping (foldl scan_instance initial_store (all_instances input)).
Proof.
  unfold final_store, reserve_all.
  by rewrite reserve_instance_mapping, scan_all_concat.
Qed.

Lemma final_stderr :
  stderr (final_store input)
  = disqualifying <$> filter (λ i, is_spot i = true) (all_instances input).
Proof.
  unfold final_store, reserve_all.
  by rewrite reserve_stderr, scan_all_concat, scan_stderr.
Qed.

Lemma lookup_running_instances k :
  running_instances (final_store input) !! k
  = entry (λ _, running_count input k) (on_demand_at k (all_instances input)).
Proof.
  rewrite final_running_instances, scan_running_instances.
  unfold running_count. by destruct (on_demand_at _ _).
Qed.

Lemma lookup_instance_mapping k :
  instance_mapping (final_store input) !! k
  = entry id (InstanceId <$> on_demand_at k (all_instances input)).
Proof. by rewrite final_instance_mapping, scan_instance_mapping. Qed.

Lemma lookup_reserved_instances k :
  reserved_instances (final_store input) !! k
  = entry (λ _, reserved_count input k)
          (reserved_at (region_name input) k (ReservedInstances input)).
Proof.
  unfold final_store, reserve_all.
  rewrite reserve_reserved_instances.
  - unfold reserved_count. by destruct (reserved_at _ _ _).
  - by rewrite scan_all_concat, scan_reserved_instances.
Qed.

Lemma get_running_instances k :
  dict_get 0 (running_instances (final_store input)) k = running_count input k.
Proof.
  unfold dict_get. rewrite lookup_running_instances. unfold running_count.
  by destruct (on_demand_at _ _).
Qed.

Lemma get_reserved_instances k :
  dict_get 0 (reserved_instances (final_store input)) k = reserved_count input k.
Proof.
  unfold dict_get. rewrite lookup_reserved_instances. unfold reserved_count.
  by destruct (reserved_at _ _ _).
Qed.

Lemma get_instance_mapping k :
  dict_get [] (instance_mapping (final_store input)) k
  = InstanceId <$> on_demand_at k (all_instances input).
Proof.
  unfold dict_get. rewrite lookup_instance_mapping. apply default_entry_id.
Qed.

End final.

Lemma final_diff_lookup input k :
  final_diff input !! k
  = diff_entry (reserved_instances (final_store input) !! k)
               (running_instances (final_store input) !! k).
Proof. apply instance_diff_lookup. Qed.

Lemma dom_final_diff input :
  dom (final_diff input)
  = dom (reserved_instances (final_store input))
    ∪ dom (running_instances (final_store input)).
Proof.
  apply set_eq; intros k.
  rewrite elem_of_union, !elem_of_dom, final_diff_lookup.
  unfold is_Some.
  destruct (reserved_instances _ !! k), (running_instances _ !! k); simpl;
    split; eauto.
  intros [[? ?]|[? ?]]; done.
Qed.

(** C1: for every key of either aggregate dictionary, [instance_diff] holds
    the reserved count minus the running count; a key that only runs gets
    minus its running count and a key that is only reserved gets its
    reserved count. *)
Theorem instance_diff_reserved_minus_running (input : Input) (k : key) :
  k ∈ dom (reserved_instances (final_store input))
      ∪ dom (running_instances (final_store input)) →
  final_diff input !! k
  = Some (dict_get 0 (reserved_instances (final_store input)) k
          - dict_get 0 (running_instances (final_store input)) k) ∧
  final_diff input !! k = Some (reserved_count input k - running_count input k) ∧
  (k ∉ dom (reserved_instances (final_store input)) →
   final_diff input !! k = Some (- running_count input k)) ∧
  (k ∉ dom (running_instances (final_store input)) →
   final_diff input !! k = Some (reserved_count input k)).
Proof.
  intros Hk.
  assert (Hdiff : final_diff input !! k
    = Some (dict_get 0 (reserved_instances (final_store input)) k
            - dict_get 0 (running_instances (final_store input)) k)).
  { rewrite final_diff_lookup. unfold dict_get.
    apply elem_of_union in Hk as [Hk|Hk]; apply elem_of_dom in Hk as [v Hv];
      rewrite Hv; simpl.
    - by destruct (running_instances _ !! k).
    - destruct (reserved_instances _ !! k); simpl; [done|]. f_equal; lia. }
  split; [done|].
  rewrite get_reserved_instances, get_running_instances in Hdiff.
  split; [done|]. split; intros Hnot; rewrite Hdiff; f_equal.
  - apply not_elem_of_dom in Hnot.
    rewrite <- (get_reserved_instances input k). unfold dict_get.
    by rewrite Hnot.
  - apply not_elem_of_dom in Hnot.
    rewrite <- (get_running_instances input k). unfold dict_get.
    rewrite Hnot. simpl. lia.
Qed.

(** C1 on the first example of the specification: reserved 2, running 3. *)
Lemma instance_diff_reserved_minus_running_witness :
  ("m5.large", "eu-west-1")
    ∈ dom (reserved_instances (final_store example_unreserved))
      ∪ dom (running_instances (final_store example_unreserved)) ∧
  final_diff example_unreserved !! ("m5.large", "eu-west-1") = Some (2 - 3).
Proof.
  assert (Hk : ("m5.large", "eu-west-1")
    ∈ dom (reserved_instances (final_store example_unreserved))
      ∪ dom (running_instances (final_store example_unreserved))).
  { apply (bool_decide_unpack _). by vm_compute. }
  split; [exact Hk|].
  exact (proj1 (proj2
    (instance_diff_reserved_minus_running example_unreserved
       ("m5.large", "eu-west-1") Hk))).
Defined.

(** C2: the keys of the three buckets are the keys of the two aggregate
    dictionaries, no key is in two buckets, the sign of [instance_diff]
    picks the bucket, and the unreserved bucket holds the absolute value. *)
Theorem buckets_partition_keys (input : Input) :
  dom (unused (reconcile input)) ∪ dom (unreserved (reconcile input))
      ∪ dom (used (reconcile input))
  = dom (running_instances (final_store input))
    ∪ dom (reserved_instances (final_store input)) ∧
  dom (unused (reconcile input)) ## dom (unreserved (reconcile input)) ∧
  dom (unused (reconcile input)) ## dom (used (reconcile input)) ∧
  dom (unreserved (reconcile input)) ## dom (used (reconcile input)) ∧
  ∀ k v,
    (unused (reconcile input) !! k = Some v
       ↔ final_diff input !! k = Some v ∧ 0 < v) ∧
    (unreserved (reconcile input) !! k = Some v
       ↔ ∃ d, final_diff input !! k = Some d ∧ d < 0 ∧ v = Z.abs d) ∧
    (used (reconcile input) !! k = Some v
       ↔ final_diff input !! k = Some v ∧ v = 0).
Proof.
  assert (Hlookup : ∀ k v,
    (unused (reconcile input) !! k = Some v
       ↔ final_diff input !! k = Some v ∧ 0 < v) ∧
    (unreserved (reconcile input) !! k = Some v
       ↔ ∃ d, final_diff input !! k = Some d ∧ d < 0 ∧ v = Z.abs d) ∧
    (used (reconcile input) !! k = Some v
       ↔ final_diff input !! k = Some v ∧ v = 0)).
  { intros k v. unfold reconcile, summarise; simpl. fold (final_diff input).
    unfold unused_reservations, unreserved_instances, used_reservations.
    rewrite lookup_fmap, fmap_Some. setoid_rewrite map_lookup_filter_Some.
    simpl. split; [done|]. split; [|done]. split.
    - intros (d & [Hd Hneg] & ->). exists d. repeat split; [done..|lia].
    - intros (d & Hd & Hneg & ->). exists d. repeat split; [done..|lia]. }
  assert (Hdom : ∀ k,
    (k ∈ dom (unused (reconcile input)) ↔ ∃ v, final_diff input !! k = Some v ∧ 0 < v) ∧
    (k ∈ dom (unreserved (reconcile input)) ↔ ∃ v, final_diff input !! k = Some v ∧ v < 0) ∧
    (k ∈ dom (used (reconcile input)) ↔ final_diff input !! k = Some 0)).
  { intros k. rewrite !elem_of_dom. unfold is_Some. repeat split.
    - intros [v Hv]. exists v. by apply Hlookup.
    - intros [v Hv]. exists v. by apply Hlookup.
    - intros [v Hv]. apply Hlookup in Hv as (d & ? & ? & ?). by exists d.
    - intros (d & ? & ?). exists (Z.abs d). apply Hlookup. by exists d.
    - intros [v Hv]. apply Hlookup in Hv as [? ->]. done.
    - intros Hv. exists 0. by apply Hlookup. }
  split; [|split; [|split; [|split]]]; [| | | |done].
  - rewrite (union_comm_L (dom (running_instances _))), <- dom_final_diff.
    apply set_eq; intros k. rewrite !elem_of_union.
    destruct (Hdom k) as (-> & -> & ->). rewrite elem_of_dom.
    unfold is_Some. split.
    + intros [[(v & ? & ?)|(v & ? & ?)]|?]; eauto.
    + intros [v Hv].
      destruct (Z.lt_trichotomy v 0) as [?|[->|?]]; eauto.
  - intros k H1 H2. apply Hdom in H1 as (v & Hv & ?), H2 as (w & Hw & ?).
    rewrite Hv in Hw. injection Hw as ->. lia.
  - intros k H1 H2. apply Hdom in H1 as (v & Hv & ?), H2.
    rewrite Hv in H2. injection H2 as ->. lia.
  - intros k H1 H2. apply Hdom in H1 as (v & Hv & ?), H2.
    rewrite Hv in H2. injection H2 as ->. lia.
Qed.

Lemma sum_values_zero (d : gmap key Z) :
  (∀ k v, d !! k = Some v → v = 0) → sum_values d = 0.
Proof.
  induction d as [|k v d Hk IH] using map_ind; intros Hd.
  - apply sum_values_empty.
  - rewrite sum_values_insert_fresh by done.
    rewrite (Hd k v) by apply lookup_insert_eq.
    rewrite IH; [done|]. intros k' v' Hv'. apply (Hd k').
    rewrite lookup_insert_ne; [done|]. intros ->. by rewrite Hk in Hv'.
Qed.

Lemma total_count_positive ris :
  Forall (λ ri, 1 ≤ ri_InstanceCount ri) ris → ris ≠ [] → 1 ≤ total_count ris.
Proof.
  induction 1 as [|ri ris Hri Hris IH]; intros Hne; [done|]. simpl.
  destruct ris as [|ri' ris]; simpl in *; [lia|].
  assert (1 ≤ ri_InstanceCount ri' + total_count ris) by (by apply IH). lia.
Qed.

(** C9: the counter of a key is the length of its id list, the id list is
    that of the on-demand instances of the key in input order, and the two
    dictionaries agree after every prefix of the instances. *)
Theorem running_count_matches_instance_mapping (input : Input) (k : key) :
  dict_get 0 (running_instances (final_store input)) k
  = Z.of_nat (length (dict_get [] (instance_mapping (final_store input)) k)) ∧
  dict_get [] (instance_mapping (final_store input)) k
  = InstanceId <$> on_demand_at k (all_instances input) ∧
  dom (running_instances (final_store input))
  = dom (instance_mapping (final_store input)) ∧
  ∀ l, running_instances (foldl scan_instance initial_store l)
       = (λ ids, Z.of_nat (length ids))
           <$> instance_mapping (foldl scan_instance initial_store l).
Proof.
  split; [|split; [|split]].
  - rewrite get_running_instances, get_instance_mapping, length_fmap. done.
  - apply get_instance_mapping.
  - rewrite final_running_instances, final_instance_mapping, scan_lock_step.
    apply dom_fmap_L.
  - apply scan_lock_step.
Qed.

(** C7: the reported running total is the sum of the running counters,
    which is the number of instances that are not spot; the reported
    reserved total is the sum of the reserved counters, which is the sum of
    the instance counts of the reservations. *)
Theorem summary_totals (input : Input) :
  qty_running_instances (reconcile input)
  = sum_values (running_instances (final_store input)) ∧
  (∀ k v, running_instances (final_store input) !! k = Some v →
          v = running_count input k) ∧
  qty_running_instances (reconcile input)
  = Z.of_nat (length (filter (λ i, is_spot i = false) (all_instances input))) ∧
  qty_reserved_instances (reconcile input)
  = sum_values (reserved_instances (final_store input)) ∧
  (∀ k v, reserved_instances (final_store input) !! k = Some v →
          v = reserved_count input k) ∧
  qty_reserved_instances (reconcile input) = total_count (ReservedInstances input).
Proof.
  split; [done|]. split; [|split; [|split; [done|split]]].
  - intros k v Hv. rewrite <- (get_running_instances input k).
    unfold dict_get. by rewrite Hv.
  - unfold reconcile, summarise; simpl.
    by rewrite final_running_instances, scan_sum_values.
  - intros k v Hv. rewrite <- (get_reserved_instances input k).
    unfold dict_get. by rewrite Hv.
  - unfold reconcile, summarise, final_store, reserve_all; simpl.
    apply reserve_sum_values.
    by rewrite scan_all_concat, scan_reserved_instances.
Qed.

(** C10: what the unused bucket adds up to, minus what the unreserved
    bucket adds up to, is the reserved total minus the running total; the
    used bucket adds up to zero. *)
Theorem buckets_balance_totals (input : Input) :
  sum_values (unused (reconcile input)) - sum_values (unreserved (reconcile input))
  = qty_reserved_instances (reconcile input) - qty_running_instances (reconcile input) ∧
  sum_values (used (reconcile input)) = 0.
Proof.
  unfold reconcile, summarise; simpl. split.
  - by rewrite sum_values_buckets, sum_values_instance_diff.
  - apply sum_values_zero. intros k v.
    unfold used_reservations. rewrite map_lookup_filter_Some. by intros [_ ?].
Qed.

(** C5: when every reservation counts at least one instance, a key whose
    difference is zero is in the used bucket, and is reported with the ids
    of the on-demand instances of that key, as many as its running
    counter. *)
Theorem used_reservations_list_instances (input : Input) (k : key) :
  Forall (λ ri, 1 ≤ ri_InstanceCount ri) (ReservedInstances input) →
  final_diff input !! k = Some 0 →
  used (reconcile input) !! k = Some 0 ∧
  used_instances (reconcile input) !! k
  = Some (InstanceId <$> on_demand_at k (all_instances input)) ∧
  running_instances (final_store input) !! k
  = Some (Z.of_nat (length (InstanceId <$> on_demand_at k (all_instances input)))).
Proof.
  intros Hcounts Hdiff.
  assert (Hused : used (reconcile input) !! k = Some 0).
  { unfold reconcile, summarise; simpl. fold (final_diff input).
    unfold used_reservations. by apply map_lookup_filter_Some. }
  assert (Hrun : on_demand_at k (all_instances input) ≠ []).
  { intros Hnil. rewrite final_diff_lookup in Hdiff.
    rewrite lookup_running_instances, Hnil in Hdiff. simpl in Hdiff.
    rewrite lookup_reserved_instances in Hdiff. unfold reserved_count in Hdiff.
    destruct (reserved_at _ _ _) as [|ri ris] eqn:Hat; simpl in Hdiff; [done|].
    assert (1 ≤ total_count (ri :: ris)); [|simpl in *; injection Hdiff; lia].
    apply total_count_positive; [|done]. rewrite <- Hat.
    apply Forall_forall. intros x Hx. apply list_elem_of_filter in Hx as [_ Hx].
    revert x Hx. by apply Forall_forall. }
  split; [done|]. split.
  - unfold reconcile, summarise; simpl. fold (final_diff input).
    rewrite map_lookup_imap.
    unfold reconcile, summarise in Hused; simpl in Hused.
    fold (final_diff input) in Hused. rewrite Hused. simpl. f_equal.
    unfold instance_list. rewrite lookup_instance_mapping.
    by destruct (on_demand_at k (all_instances input)).
  - rewrite lookup_running_instances. unfold running_count.
    rewrite length_fmap. by destruct (on_demand_at k (all_instances input)).
Qed.

(** C5 on the second example of the specification: both ids are listed. *)
Lemma used_reservations_list_instances_witness :
  Forall (λ ri, 1 ≤ ri_InstanceCount ri) (ReservedInstances example_exact) ∧
  final_diff example_exact !! ("c5.xlarge", "us-east-1") = Some 0 ∧
  used (reconcile example_exact) !! ("c5.xlarge", "us-east-1") = Some 0 ∧
  used_instances (reconcile example_exact) !! ("c5.xlarge", "us-east-1")
  = Some ["i-11"; "i-12"] ∧
  running_instances (final_store example_exact) !! ("c5.xlarge", "us-east-1")
  = Some 2.
Proof.
  assert (Hcounts : Forall (λ ri, 1 ≤ ri_InstanceCount ri)
                           (ReservedInstances example_exact)).
  { repeat constructor. simpl. lia. }
  assert (Hdiff : final_diff example_exact !! ("c5.xlarge", "us-east-1") = Some 0).
  { by vm_compute. }
  split; [exact Hcounts|]. split; [exact Hdiff|].
  exact (used_reservations_list_instances example_exact
           ("c5.xlarge", "us-east-1") Hcounts Hdiff).
Defined.

(** ** Region of a reserved instance *)

Lemma slice_to_last_snoc (s : string) (c : Ascii.ascii) :
  slice_to_last (s +:+ String c "") = s.
Proof.
  induction s as [|a s IH]; [done|].
  change (String a s +:+ String c "") with (String a (s +:+ String c "")).
  simpl. rewrite IH. by destruct s.
Qed.

Lemma slice_to_last_strips (s : string) :
  s ≠ "" → ∃ c, s = slice_to_last s +:+ String c "".
Proof.
  induction s as [|a s IH]; [done|]. intros _.
  destruct s as [|b s]; [by exists a|].
  destruct IH as [c Hc]; [done|]. exists c.
  change (slice_to_last (String a (String b s)))
    with (String a (slice_to_last (String b s))).
  change (String a (slice_to_last (String b s)) +:+ String c "")
    with (String a (slice_to_last (String b s) +:+ String c "")).
  by rewrite <- Hc.
Qed.

Lemma slice_to_last_nonempty (s : string) :
  (2 ≤ String.length s)%nat → slice_to_last s ≠ "".
Proof. destruct s as [|a [|b s]]; simpl; [lia | lia | done]. Qed.

(** C3 as stated fails: with an empty availability zone and scope
    "Region", the script takes the session's region, not the stripped
    (empty) zone. *)
Lemma reserved_region_empty_zone :
  reserved_region "eu-west-1" empty_zone_reservation = "eu-west-1" ∧
  spec_reserved_region "eu-west-1" empty_zone_reservation = "" ∧
  reserved_region "eu-west-1" empty_zone_reservation
  ≠ spec_reserved_region "eu-west-1" empty_zone_reservation.
Proof. by vm_compute. Qed.

(** C3, amended: a present and non-empty availability zone gives the zone
    without its last character; otherwise scope "Region" gives the
    session's region, and anything else gives "Unknown".  The count of the
    reservation is added under that region. *)
Theorem reserved_region_derivation (session_region : string) (ri : ReservedInstance) :
  (∀ az, ri_AvailabilityZone ri = Some az → az ≠ "" →
     reserved_region session_region ri = slice_to_last az) ∧
  (∀ s c, ri_AvailabilityZone ri = Some (s +:+ String c "") →
     reserved_region session_region ri = s) ∧
  (ri_AvailabilityZone ri = None ∨ ri_AvailabilityZone ri = Some "" →
   ri_Scope ri = Some "Region" →
     reserved_region session_region ri = session_region ∧
     (session_region ≠ "Unknown" → reserved_region session_region ri ≠ "Unknown")) ∧
  (ri_AvailabilityZone ri = None ∨ ri_AvailabilityZone ri = Some "" →
   ri_Scope ri ≠ Some "Region" →
     reserved_region session_region ri = "Unknown") ∧
  (ri_AvailabilityZone ri ≠ Some "" →
     reserved_region session_region ri = spec_reserved_region session_region ri) ∧
  ∀ st, reserved_instances (reserve session_region st ri)
        = <[(ri_InstanceType ri, reserved_region session_region ri) :=
              dict_get 0 (reserved_instances st)
                (ri_InstanceType ri, reserved_region session_region ri)
              + ri_InstanceCount ri]> (reserved_instances st).
Proof.
  unfold reserved_region, spec_reserved_region.
  split; [|split; [|split; [|split; [|split]]]].
  - intros az -> Hne. by destruct az.
  - intros s c ->. rewrite <- (slice_to_last_snoc s c) at 2. by destruct s.
  - intros [->| ->] ->; by rewrite decide_True.
  - intros [->| ->] Hscope;
      (destruct (ri_Scope ri) as [scope|]; [|done]);
      rewrite decide_False; [done| |done|]; by intros ->.
  - intros Hne. destruct (ri_AvailabilityZone ri) as [[|??]|]; done.
  - done.
Qed.

(** ** Spot instances *)

Lemma filter_concat_fmap {A} (P : A → Prop) `{!∀ x, Decision (P x)}
    (groups : list (list A)) :
  concat (filter P <$> groups) = filter P (concat groups).
Proof.
  induction groups as [|g groups IH]; [done|].
  rewrite fmap_cons. simpl. by rewrite filter_app, <- IH.
Qed.

Lemma on_demand_at_drop_spot input k :
  on_demand_at k (all_instances (drop_spot input))
  = on_demand_at k (all_instances input).
Proof.
  unfold all_instances, on_demand_at.
  change (Reservations (drop_spot input))
    with (filter (λ i, is_spot i = false) <$> Reservations input).
  rewrite filter_concat_fmap, list_filter_filter.
  apply list_filter_iff. intros i. split; [by intros [? _] | by intros [? ?]].
Qed.

(** C4: a spot instance changes neither the running counters nor the id
    lists, only the standard error log; the script computes the same
    dictionaries, buckets and totals as on the input without its spot
    instances. *)
Theorem spot_instances_not_counted (input : Input) :
  (∀ st i, is_spot i = true →
     running_instances (scan_instance st i) = running_instances st ∧
     instance_mapping (scan_instance st i) = instance_mapping st ∧
     stderr (scan_instance st i) = stderr st ++ [disqualifying i]) ∧
  running_instances (final_store input)
  = running_instances (final_store (drop_spot input)) ∧
  instance_mapping (final_store input)
  = instance_mapping (final_store (drop_spot input)) ∧
  (∀ k, running_count input k
        = Z.of_nat (length (filter (λ i, is_spot i = false ∧ instance_key i = k)
                                   (all_instances input)))) ∧
  (∀ i, i ∈ all_instances input → is_spot i = true →
        disqualifying i ∈ disqualified (reconcile input)) ∧
  unused (reconcile input) = unused (reconcile (drop_spot input)) ∧
  unreserved (reconcile input) = unreserved (reconcile (drop_spot input)) ∧
  used (reconcile input) = used (reconcile (drop_spot input)) ∧
  qty_running_instances (reconcile input)
  = qty_running_instances (reconcile (drop_spot input)).
Proof.
  assert (Hrun : running_instances (final_store input)
                 = running_instances (final_store (drop_spot input))).
  { apply map_eq; intros k. rewrite !lookup_running_instances.
    unfold running_count. by rewrite on_demand_at_drop_spot. }
  assert (Hmap : instance_mapping (final_store input)
                 = instance_mapping (final_store (drop_spot input))).
  { apply map_eq; intros k. rewrite !lookup_instance_mapping.
    by rewrite on_demand_at_drop_spot. }
  assert (Hres : reserved_instances (final_store input)
                 = reserved_instances (final_store (drop_spot input))).
  { apply map_eq; intros k. by rewrite !lookup_reserved_instances. }
  split; [|split; [done|split; [done|split; [done|split]]]].
  - intros st i Hspot. unfold scan_instance. by rewrite Hspot.
  - intros i Hi Hspot. unfold reconcile, summarise; simpl.
    rewrite final_stderr. apply list_elem_of_fmap_2.
    by apply list_elem_of_filter.
  - unfold reconcile, summarise; simpl. by rewrite Hrun, Hres.
Qed.

(** ** Runs of the script *)

Section runs.
Variable input : Input.

Lemma step_deterministic : deterministic (step input).
Proof. intros c c1 c2 H1 H2. inversion H1; subst; inversion H2; by subst. Qed.

Lemma step_progress c : (∃ r, c = Reported r) ∨ red (step input) c.
Proof.
  destruct c as [[|i instances] [|g rest] st|[|ri ris] st|r];
    [right; eexists; constructor..|left; by eexists].
Qed.

Lemma nf_Reported r : nf (step input) (Reported r).
Proof. intros [c Hc]. inversion Hc. Qed.

Lemma step_steps_left c c' :
  step input c c' → steps_left input c = S (steps_left input c').
Proof. destruct 1; simpl; lia. Qed.

Lemma step_terminates c : sn (step input) c.
Proof.
  remember (steps_left input c) as n eqn:Hn. revert c Hn.
  induction n as [n IH] using lt_wf_ind. intros c ->.
  constructor. intros c' Hstep. unfold flip in Hstep.
  apply step_steps_left in Hstep as Hleft.
  apply (IH (steps_left input c')); [lia | done].
Qed.

Lemma run_reserving ris st :
  rtc (step input) (Reserving ris st)
      (Reported (summarise (reserve_all (region_name input) st ris))).
Proof.
  revert st. induction ris as [|ri ris IH]; intros st.
  - apply rtc_once. constructor.
  - eapply rtc_l; [constructor|]. apply IH.
Qed.

Lemma run_scanning instances rest st :
  rtc (step input) (Scanning instances rest st)
      (Reserving (ReservedInstances input)
                 (scan_all (foldl scan_instance st instances) rest)).
Proof.
  revert instances st. induction rest as [|g rest IH]; intros instances st.
  - revert st. induction instances as [|i instances IHi]; intros st.
    + apply rtc_once. constructor.
    + eapply rtc_l; [constructor|]. apply IHi.
  - revert st. induction instances as [|i instances IHi]; intros st.
    + eapply rtc_l; [constructor|]. apply IH.
    + eapply rtc_l; [constructor|]. apply IHi.
Qed.

Lemma run_reconcile : reconciles input (reconcile input).
Proof.
  unfold reconciles, initial_config, reconcile, final_store.
  etrans; [apply run_scanning|]. apply run_reserving.
Qed.

End runs.

(** C6: two runs of the script on the same input end in the same report:
    the same three buckets and the same two totals. *)
Theorem reconcile_deterministic (input : Input) (r1 r2 : report) :
  reconciles input r1 → reconciles input r2 →
  r1 = r2 ∧
  unused r1 = unused r2 ∧ unreserved r1 = unreserved r2 ∧ used r1 = used r2 ∧
  qty_running_instances r1 = qty_running_instances r2 ∧
  qty_reserved_instances r1 = qty_reserved_instances r2.
Proof.
  intros H1 H2.
  assert (Reported r1 = Reported r2) as Heq.
  { eapply (confluent_rtc_nf (R := step input)).
    - apply deterministic_confluent, step_deterministic.
    - apply H1.
    - apply nf_Reported.
    - apply H2.
    - apply nf_Reported. }
  injection Heq as ->. done.
Qed.

(** C6 on the third example of the specification: the run of the script
    and a run ending in the report written out agree. *)
Lemma reconcile_deterministic_witness :
  reconciles example_unused (reconcile example_unused) ∧
  reconciles example_unused
    {| unused := {[ ("t3.micro", "ap-south-1") := 5 ]};
       unreserved := ∅; used := ∅; used_instances := ∅;
       qty_running_instances := 0; qty_reserved_instances := 5;
       disqualified := [] |} ∧
  unused (reconcile example_unused) = {[ ("t3.micro", "ap-south-1") := 5 ]} ∧
  qty_reserved_instances (reconcile example_unused) = 5.
Proof.
  assert (H1 : reconciles example_unused (reconcile example_unused)).
  { unfold reconciles, initial_config. simpl.
    eapply rtc_l; [constructor|]. eapply rtc_l; [constructor|].
    eapply rtc_l; [constructor|]. apply rtc_refl. }
  assert (H2 : reconciles example_unused
    {| unused := {[ ("t3.micro", "ap-south-1") := 5 ]};
       unreserved := ∅; used := ∅; used_instances := ∅;
       qty_running_instances := 0; qty_reserved_instances := 5;
       disqualified := [] |}).
  { unfold reconciles, initial_config. simpl.
    eapply rtc_l; [constructor|]. eapply rtc_l; [constructor|].
    eapply rtc_l; [constructor|]. 
    apply (eq_rect _ (λ c, rtc (step example_unused) c _) (rtc_refl _ _)).
    by vm_compute. }
  split; [exact H1|]. split; [exact H2|].
  destruct (reconcile_deterministic example_unused _ _ H1 H2) as (_ & Hu & _ & _ & _ & Hq).
  split; [exact Hu | exact Hq].
Defined.

(** C8: on a well-formed input the script cannot fail: every run is
    finite, a configuration it reaches either is the report or has a next
    step, the run ends in the report with the three buckets and the two
    totals, and stripping an availability zone removes exactly its last
    character and leaves a region that is not empty. *)
Theorem reconcile_cannot_fail (input : Input) :
  well_formed input →
  sn (step input) (initial_config input) ∧
  (∀ c, rtc (step input) (initial_config input) c →
        (∃ r, c = Reported r) ∨ red (step input) c) ∧
  (∀ c, rtc (step input) (initial_config input) c →
        rtc (step input) c (Reported (reconcile input))) ∧
  (∀ i, i ∈ all_instances input →
        (instance_key i).2 ≠ "" ∧
        ∃ c, AvailabilityZone i = (instance_key i).2 +:+ String c "") ∧
  (∀ ri az, ri ∈ ReservedInstances input → ri_AvailabilityZone ri = Some az →
        reserved_region (region_name input) ri ≠ "" ∧
        ∃ c, az = reserved_region (region_name input) ri +:+ String c "") ∧
  ∃ r, reconciles input r ∧ r = reconcile input.
Proof.
  intros [Hris Hinstances].
  split; [apply step_terminates|]. split; [|split; [|split; [|split]]].
  - intros c _. apply step_progress.
  - intros c Hc.
    destruct (deterministic_confluent (step_deterministic input)
                (initial_config input) c (Reported (reconcile input)))
      as (c' & Hc1 & Hc2); [done | apply run_reconcile |].
    apply rtc_nf in Hc2 as <-; [done | apply nf_Reported].
  - intros i Hi. rewrite Forall_forall in Hinstances.
    destruct (Hinstances i Hi) as [_ Hlen]. simpl. split.
    + by apply slice_to_last_nonempty.
    + apply slice_to_last_strips. intros Hnil. rewrite Hnil in Hlen.
      simpl in Hlen. lia.
  - intros ri az Hri Haz. rewrite Forall_forall in Hris.
    destruct (Hris ri Hri) as (_ & _ & Hlen). specialize (Hlen az Haz).
    unfold reserved_region. rewrite Haz.
    destruct az as [|a az]; [simpl in Hlen; lia|]. split.
    + by apply slice_to_last_nonempty.
    + by apply slice_to_last_strips.
  - exists (reconcile input). split; [apply run_reconcile | done].
Qed.

(** C8 on the second example of the specification. *)
Lemma reconcile_cannot_fail_witness :
  well_formed example_exact ∧
  ∃ r, reconciles example_exact r ∧ r = reconcile example_exact.
Proof.
  assert (Hwf : well_formed example_exact).
  { split; repeat constructor; simpl; try lia; try done.
    intros az [= <-]. simpl. lia. }
  split; [exact Hwf|].
  exact (proj2 (proj2 (proj2 (proj2 (proj2
    (reconcile_cannot_fail example_exact Hwf)))))).
Defined.

(** ** The specification's examples, evaluated *)

Example slice_to_last_zone : slice_to_last "eu-west-1a" = "eu-west-1".
Proof. reflexivity. Qed.

Example slice_to_last_short :
  slice_to_last "a" = "" ∧ slice_to_last "" = "".
Proof. split; reflexivity. Qed.

(** Three on-demand instances and one spot instance against a reservation
    of two: one instance is not reserved. *)
Example example_unreserved_report :
  running_instances (final_store example_unreserved) !! ("m5.large", "eu-west-1")
  = Some 3 ∧
  reserved_instances (final_store example_unreserved) !! ("m5.large", "eu-west-1")
  = Some 2 ∧
  final_diff example_unreserved !! ("m5.large", "eu-west-1") = Some (-1) ∧
  unreserved (reconcile example_unreserved) = {[ ("m5.large", "eu-west-1") := 1 ]} ∧
  unused (reconcile example_unreserved) = ∅ ∧
  used (reconcile example_unreserved) = ∅ ∧
  qty_running_instances (reconcile example_unreserved) = 3 ∧
  qty_reserved_instances (reconcile example_unreserved) = 2.
Proof. repeat split; by vm_compute. Qed.

(** Two instances against a reservation of two: used, with both ids. *)
Example example_exact_report :
  used (reconcile example_exact) = {[ ("c5.xlarge", "us-east-1") := 0 ]} ∧
  used_instances (reconcile example_exact)
  = {[ ("c5.xlarge", "us-east-1") := ["i-11"; "i-12"] ]} ∧
  unused (reconcile example_exact) = ∅ ∧
  unreserved (reconcile example_exact) = ∅.
Proof. repeat split; by vm_compute. Qed.

(** Nothing running against a reservation of five: five unused. *)
Example example_unused_report :
  unused (reconcile example_unused) = {[ ("t3.micro", "ap-south-1") := 5 ]} ∧
  unreserved (reconcile example_unused) = ∅ ∧
  used (reconcile example_unused) = ∅.
Proof. repeat split; by vm_compute. Qed.

(** Why C5 asks for counts of at least one: a reservation of zero
    instances with nothing running is used, and is printed with the
    placeholder instead of an empty list. *)
Example zero_count_reservation_placeholder :
  used_instances
    (reconcile {| Reservations := [];
                  ReservedInstances := [regional "t3.micro" 0];
                  region_name := "eu-west-1" |})
  = {[ ("t3.micro", "eu-west-1") := ["N/A"] ]}.
Proof. by vm_compute. Qed.

(** ** Dictionaries in insertion order *)

Section odict_lemmas.
Context {K V : Type} `{Countable K}.
Implicit Types (d : list (K * V)) (k : K) (v : V).

Lemma od_lookup_list_to_map d k :
  od_lookup k d = (list_to_map d : gmap K V) !! k.
Proof.
  induction d as [|[k' v] d IH]; simpl; [by rewrite lookup_empty|].
  case_decide as Hk.
  - subst. by rewrite lookup_insert_eq.
  - by rewrite lookup_insert_ne.
Qed.

Lemma od_lookup_None d k : od_lookup k d = None ↔ k ∉ d.*1.
Proof.
  induction d as [|[k' v] d IH]; simpl.
  - split; [intros _; apply not_elem_of_nil | done].
  - rewrite not_elem_of_cons. case_decide; naive_solver.
Qed.

Lemma od_lookup_is_Some d k : is_Some (od_lookup k d) ↔ k ∈ d.*1.
Proof.
  rewrite <- not_eq_None_Some, od_lookup_None.
  destruct (decide (k ∈ d.*1)); naive_solver.
Qed.

Lemma od_lookup_elem_of d k v :
  NoDup d.*1 → od_lookup k d = Some v ↔ (k, v) ∈ d.
Proof.
  intros Hd. rewrite od_lookup_list_to_map. symmetry.
  by apply elem_of_list_to_map.
Qed.

Lemma od_lookup_store d k k' v :
  od_lookup k' (od_store k v d)
  = if decide (k = k') then Some v else od_lookup k' d.
Proof.
  induction d as [|[k0 v0] d IH]; simpl.
  - repeat case_decide; naive_solver.
  - repeat (case_decide || simpl); subst; try done; rewrite IH;
      repeat case_decide; naive_solver.
Qed.

Lemma od_store_keys d k v :
  (od_store k v d).*1 = if decide (k ∈ d.*1) then d.*1 else d.*1 ++ [k].
Proof.
  induction d as [|[k0 v0] d IH].
  - case_decide as Hin; [|done]. by apply elem_of_nil in Hin.
  - simpl od_store. rewrite fmap_cons. simpl fst.
    destruct (decide (k0 = k)) as [->|Hne].
    + rewrite decide_True; [done | apply list_elem_of_here].
    + rewrite fmap_cons, IH. simpl fst.
      destruct (decide (k ∈ d.*1)) as [Hin|Hin].
      * rewrite decide_True; [done | by apply list_elem_of_further].
      * rewrite decide_False; [done|].
        rewrite not_elem_of_cons. naive_solver.
Qed.

Lemma od_store_fresh d k v : k ∉ d.*1 → od_store k v d = d ++ [(k, v)].
Proof.
  induction d as [|[k0 v0] d IH]; simpl; [done|].
  rewrite not_elem_of_cons. intros [Hne Hin].
  rewrite decide_False by done. by rewrite IH.
Qed.

Lemma NoDup_od_store d k v : NoDup d.*1 → NoDup (od_store k v d).*1.
Proof.
  intros Hd. rewrite od_store_keys. case_decide; [done|].
  apply NoDup_app. split; [done|]. split; [|apply NoDup_singleton].
  intros x Hx ->%list_elem_of_singleton. done.
Qed.

Lemma list_to_map_od_store d k v :
  (list_to_map (od_store k v d) : gmap K V) = <[k := v]> (list_to_map d).
Proof.
  apply map_eq; intros k'.
  rewrite <- od_lookup_list_to_map, od_lookup_store.
  case_decide.
  - subst. by rewrite lookup_insert_eq.
  - by rewrite lookup_insert_ne, <- od_lookup_list_to_map.
Qed.

Lemma od_of_items_go acc items :
  NoDup (acc ++ items).*1 →
  foldl (λ d kv, od_store kv.1 kv.2 d) acc items = acc ++ items.
Proof.
  revert acc. induction items as [|[k v] items IH]; intros acc Hnd; simpl.
  - by rewrite app_nil_r.
  - rewrite od_store_fresh.
    + rewrite IH; rewrite <- app_assoc; done.
    + rewrite fmap_app in Hnd. apply NoDup_app in Hnd as (_ & Hdisj & _).
      intros Hin. apply (Hdisj k Hin). simpl. apply list_elem_of_here.
Qed.

(** A comprehension over items with distinct keys keeps them as they are. *)
Lemma od_of_items_NoDup (items : list (K * V)) :
  NoDup items.*1 → od_of_items items = items.
Proof. intros Hnd. unfold od_of_items. by rewrite od_of_items_go. Qed.

Lemma first_occurrences_elem_of (l : list K) k :
  k ∈ first_occurrences l ↔ k ∈ l.
Proof.
  induction l as [|x l IH]; simpl; [done|].
  rewrite !elem_of_cons, list_elem_of_filter, IH.
  destruct (decide (k = x)); naive_solver.
Qed.

Lemma NoDup_first_occurrences (l : list K) : NoDup (first_occurrences l).
Proof.
  induction l as [|x l IH]; simpl; [constructor|].
  constructor; [|by apply NoDup_filter].
  rewrite list_elem_of_filter. naive_solver.
Qed.

Lemma first_occurrences_snoc (l : list K) k :
  first_occurrences (l ++ [k])
  = if decide (k ∈ l) then first_occurrences l else first_occurrences l ++ [k].
Proof.
  induction l as [|x l IH].
  - case_decide as Hin; [|done]. by apply elem_of_nil in Hin.
  - change ((x :: l) ++ [k]) with (x :: (l ++ [k])).
    simpl first_occurrences. rewrite IH.
    destruct (decide (k ∈ l)) as [Hin|Hin].
    + rewrite decide_True; [done | by apply list_elem_of_further].
    + rewrite filter_app, filter_cons, filter_nil.
      destruct (decide (k = x)) as [->|Hne].
      * rewrite (decide_True (P := x ∈ x :: l)) by apply list_elem_of_here.
        rewrite (decide_False (P := x ≠ x)) by naive_solver.
        by rewrite app_nil_r.
      * rewrite (decide_False (P := k ∈ x :: l))
          by (rewrite not_elem_of_cons; naive_solver).
        by rewrite (decide_True (P := k ≠ x)).
Qed.

Lemma list_to_map_filter_NoDup (P : K * V → Prop) `{!∀ x, Decision (P x)} d :
  NoDup d.*1 →
  (list_to_map (filter P d) : gmap K V) = filter P (list_to_map d).
Proof.
  intros Hd. apply map_eq; intros k. apply option_eq; intros v.
  assert (NoDup (filter P d).*1) as Hf.
  { apply (sublist_NoDup _ d.*1); [done|].
    apply fmap_sublist, sublist_filter. }
  rewrite map_lookup_filter_Some.
  rewrite <- !elem_of_list_to_map by done.
  rewrite list_elem_of_filter. naive_solver.
Qed.

End odict_lemmas.

(** ** The printing part of [reserved_instance.py] *)

Lemma running_items_refines l :
  NoDup (running_items l).*1 ∧
  list_to_map (running_items l)
  = running_instances (foldl scan_instance initial_store l).
Proof.
  unfold running_items.
  induction l as [|i l [IHnd IH]] using rev_ind.
  - split; [apply NoDup_nil_2 | done].
  - rewrite !foldl_snoc. unfold scan_instance at 1.
    destruct (is_spot i); simpl; [done|]. split.
    + by apply NoDup_od_store.
    + rewrite <- IH. unfold count_item at 1. unfold dict_add, dict_get.
      by rewrite list_to_map_od_store, od_lookup_list_to_map.
Qed.

Lemma mapping_items_refines l :
  NoDup (mapping_items l).*1 ∧
  list_to_map (mapping_items l)
  = instance_mapping (foldl scan_instance initial_store l).
Proof.
  unfold mapping_items.
  induction l as [|i l [IHnd IH]] using rev_ind.
  - split; [apply NoDup_nil_2 | done].
  - rewrite !foldl_snoc. unfold scan_instance at 1.
    destruct (is_spot i); simpl; [done|]. split.
    + by apply NoDup_od_store.
    + rewrite <- IH. unfold append_item at 1. unfold dict_append, dict_get.
      by rewrite list_to_map_od_store, od_lookup_list_to_map.
Qed.

Lemma reserved_items_refines rn st ris :
  reserved_instances st = ∅ →
  NoDup (reserved_items rn ris).*1 ∧
  list_to_map (reserved_items rn ris)
  = reserved_instances (foldl (reserve rn) st ris).
Proof.
  intros Hst. unfold reserved_items.
  induction ris as [|ri ris [IHnd IH]] using rev_ind.
  - split; [apply NoDup_nil_2 | simpl; by rewrite Hst].
  - rewrite !foldl_snoc. simpl. split.
    + by apply NoDup_od_store.
    + rewrite <- IH. unfold count_item at 1. unfold dict_add, dict_get.
      by rewrite list_to_map_od_store, od_lookup_list_to_map.
Qed.

Lemma count_item_keys d k n :
  (count_item d k n).*1 = if decide (k ∈ d.*1) then d.*1 else d.*1 ++ [k].
Proof. apply od_store_keys. Qed.

Lemma running_items_keys l :
  (running_items l).*1
  = first_occurrences (instance_key <$> filter (λ i, is_spot i = false) l).
Proof.
  unfold running_items. induction l as [|i l IH] using rev_ind; [done|].
  rewrite foldl_snoc, filter_app, filter_cons, filter_nil.
  destruct (is_spot i) eqn:Hspot; case_decide; try done.
  - by rewrite app_nil_r.
  - rewrite count_item_keys, fmap_app.
    change (instance_key <$> [i]) with [instance_key i].
    rewrite first_occurrences_snoc, IH.
    apply decide_ext, first_occurrences_elem_of.
Qed.

Lemma reserved_items_keys rn ris :
  (reserved_items rn ris).*1 = first_occurrences (reserved_key rn <$> ris).
Proof.
  unfold reserved_items. induction ris as [|ri ris IH] using rev_ind; [done|].
  rewrite foldl_snoc.
  rewrite count_item_keys, fmap_app.
  change (reserved_key rn <$> [ri]) with [reserved_key rn ri].
  rewrite first_occurrences_snoc, IH.
  apply decide_ext, first_occurrences_elem_of.
Qed.

Section diff_items.
Variables reserved running : list (key * Z).
Hypothesis NoDup_reserved : NoDup reserved.*1.

Let comprehension : list (key * Z) :=
  (λ x, (x, default 0 (od_lookup x reserved) - default 0 (od_lookup x running)))
    <$> reserved.*1.

Let body (diff : list (key * Z)) (placement_key : key) : list (key * Z) :=
  if decide (od_lookup placement_key reserved = None)
  then od_store placement_key (- default 0 (od_lookup placement_key running)) diff
  else diff.

Lemma comprehension_keys : comprehension.*1 = reserved.*1.
Proof.
  unfold comprehension. rewrite <- list_fmap_compose.
  apply list_fmap_id.
Qed.

Lemma od_lookup_comprehension k :
  od_lookup k (od_of_items comprehension)
  = (λ v, v - default 0 (od_lookup k running)) <$> od_lookup k reserved.
Proof.
  rewrite od_of_items_NoDup by (by rewrite comprehension_keys).
  unfold comprehension.
  destruct (od_lookup k reserved) as [v|] eqn:Hk; simpl.
  - assert (k ∈ reserved.*1) as Hin by (apply od_lookup_is_Some; eauto).
    clear NoDup_reserved. induction reserved.*1 as [|x l IH]; [by apply elem_of_nil in Hin|].
    simpl. destruct (decide (x = k)) as [->|Hne]; [by rewrite Hk|].
    apply IH. by apply elem_of_cons in Hin as [->|?].
  - apply od_lookup_None in Hk. apply od_lookup_None.
    by rewrite <- list_fmap_compose, list_fmap_id.
Qed.

Lemma od_lookup_body ks : ∀ diff k,
  od_lookup k (foldl body diff ks)
  = if decide (k ∈ ks ∧ od_lookup k reserved = None)
    then Some (- default 0 (od_lookup k running))
    else od_lookup k diff.
Proof.
  induction ks as [|x ks IH]; intros diff k.
  - case_decide as Hd; [|done]. destruct Hd as [Hin _]. by apply elem_of_nil in Hin.
  - change (foldl body diff (x :: ks)) with (foldl body (body diff x) ks).
    rewrite IH. unfold body at 1.
    destruct (decide (k ∈ ks ∧ od_lookup k reserved = None)) as [[Hin Hk]|Hnot].
    + rewrite decide_True; [done|]. split; [by apply list_elem_of_further | done].
    + destruct (decide (od_lookup x reserved = None)) as [Hx|Hx].
      * rewrite od_lookup_store. destruct (decide (x = k)) as [->|Hne].
        -- rewrite decide_True; [done|]. split; [apply list_elem_of_here | done].
        -- rewrite decide_False; [done|]. intros [Hin Hk].
           apply elem_of_cons in Hin as [->|Hin]; [done|]. by apply Hnot.
      * rewrite decide_False; [done|]. intros [Hin Hk].
        apply elem_of_cons in Hin as [->|Hin]; [done|]. by apply Hnot.
Qed.

Lemma od_lookup_diff_items k :
  od_lookup k (diff_items reserved running)
  = diff_entry (od_lookup k reserved) (od_lookup k running).
Proof.
  unfold diff_items. fold comprehension.
  change (foldl _ (od_of_items comprehension) running.*1)
    with (foldl body (od_of_items comprehension) running.*1).
  rewrite od_lookup_body, od_lookup_comprehension.
  destruct (od_lookup k reserved) as [r|] eqn:Hr; simpl.
  - rewrite decide_False by (by intros [_ ?]).
    by destruct (od_lookup k running).
  - destruct (od_lookup k running) as [v|] eqn:Hv; simpl.
    + rewrite decide_True; [done|]. split; [|done].
      apply od_lookup_is_Some. eauto.
    + rewrite decide_False; [done|]. intros [Hin _].
      apply od_lookup_is_Some in Hin as [? ?]. congruence.
Qed.

Lemma body_keys ks : ∀ diff,
  NoDup ks →
  (∀ k, k ∈ ks → od_lookup k reserved = None → k ∉ diff.*1) →
  (foldl body diff ks).*1
  = diff.*1 ++ filter (λ k, od_lookup k reserved = None) ks.
Proof.
  induction ks as [|x ks IH]; intros diff Hnd Hfresh; simpl.
  - by rewrite app_nil_r.
  - apply NoDup_cons in Hnd as [Hx Hnd]. rewrite filter_cons. unfold body at 2.
    destruct (decide (od_lookup x reserved = None)) as [Hnone|Hsome].
    + assert (x ∉ diff.*1) as Hnew by (apply Hfresh; [apply list_elem_of_here | done]).
      rewrite IH; [|done|].
      * rewrite od_store_keys, decide_False by done.
        by rewrite <- app_assoc.
      * intros k Hk Hknone. rewrite od_store_keys, decide_False by done.
        rewrite not_elem_of_app. split.
        -- apply Hfresh; [by apply list_elem_of_further | done].
        -- intros ->%list_elem_of_singleton. done.
    + apply IH; [done|]. intros k Hk. apply Hfresh. by apply list_elem_of_further.
Qed.

Lemma diff_items_keys :
  NoDup running.*1 →
  (diff_items reserved running).*1
  = reserved.*1 ++ filter (λ k, od_lookup k reserved = None) running.*1.
Proof.
  intros Hrun. unfold diff_items. fold comprehension.
  change (foldl _ (od_of_items comprehension) running.*1)
    with (foldl body (od_of_items comprehension) running.*1).
  rewrite body_keys; [|done|].
  - by rewrite od_of_items_NoDup, comprehension_keys by (by rewrite comprehension_keys).
  - intros k _ Hnone.
    rewrite od_of_items_NoDup, comprehension_keys by (by rewrite comprehension_keys).
    by apply od_lookup_None.
Qed.

Lemma NoDup_diff_items : NoDup running.*1 → NoDup (diff_items reserved running).*1.
Proof.
  intros Hrun. rewrite diff_items_keys by done.
  apply NoDup_app. split; [done|]. split; [|by apply NoDup_filter].
  intros k Hk [Hnone _]%list_elem_of_filter. by apply od_lookup_None in Hnone.
Qed.

Lemma list_to_map_diff_items :
  list_to_map (diff_items reserved running)
  = instance_diff (list_to_map reserved) (list_to_map running).
Proof.
  apply map_eq; intros k.
  rewrite instance_diff_lookup, <- !od_lookup_list_to_map.
  apply od_lookup_diff_items.
Qed.

End diff_items.

Section printed.
Variable input : Input.

Lemma running_items_final :
  NoDup (running_items (all_instances input)).*1 ∧
  list_to_map (running_items (all_instances input))
  = running_instances (final_store input).
Proof.
  rewrite final_running_instances. apply running_items_refines.
Qed.

Lemma mapping_items_final :
  NoDup (mapping_items (all_instances input)).*1 ∧
  list_to_map (mapping_items (all_instances input))
  = instance_mapping (final_store input).
Proof.
  rewrite final_instance_mapping. apply mapping_items_refines.
Qed.

Lemma reserved_items_final :
  NoDup (reserved_items (region_name input) (ReservedInstances input)).*1 ∧
  list_to_map (reserved_items (region_name input) (ReservedInstances input))
  = reserved_instances (final_store input).
Proof.
  unfold final_store, reserve_all. apply reserved_items_refines.
  by rewrite scan_all_concat, scan_reserved_instances.
Qed.

Lemma printed_diff_final :
  NoDup (printed_diff input).*1 ∧
  list_to_map (printed_diff input) = final_diff input.
Proof.
  destruct running_items_final as [Hrun_nd Hrun].
  destruct reserved_items_final as [Hres_nd Hres].
  unfold printed_diff, final_diff. split.
  - by apply NoDup_diff_items.
  - by rewrite list_to_map_diff_items, Hrun, Hres.
Qed.

End printed.

Lemma NoDup_filter_keys {V} (P : key * V → Prop) `{!∀ x, Decision (P x)}
    (d : list (key * V)) :
  NoDup d.*1 → NoDup (filter P d).*1.
Proof.
  intros Hd. apply (sublist_NoDup _ d.*1); [done|].
  apply fmap_sublist, sublist_filter.
Qed.

Lemma unused_items_filter d :
  NoDup d.*1 → unused_items d = filter (λ kv, 0 < kv.2) d.
Proof. intros Hd. apply od_of_items_NoDup. by apply NoDup_filter_keys. Qed.

Lemma used_items_filter d :
  NoDup d.*1 → used_items d = filter (λ kv, kv.2 = 0) d.
Proof. intros Hd. apply od_of_items_NoDup. by apply NoDup_filter_keys. Qed.

Lemma unreserved_items_filter d :
  NoDup d.*1 →
  unreserved_items d = prod_map id Z.opp <$> filter (λ kv, kv.2 < 0) d.
Proof.
  intros Hd. unfold unreserved_items.
  rewrite od_of_items_NoDup.
  - apply list_fmap_ext. by intros _ [k v] _.
  - rewrite <- list_fmap_compose.
    rewrite (list_fmap_ext _ fst (filter (λ kv, kv.2 < 0) d))
      by (by intros _ [k v] _).
    by apply NoDup_filter_keys.
Qed.

Lemma buckets_refine d :
  NoDup d.*1 →
  (NoDup (unused_items d).*1 ∧
   list_to_map (unused_items d) = unused_reservations (list_to_map d)) ∧
  (NoDup (unreserved_items d).*1 ∧
   list_to_map (unreserved_items d) = unreserved_instances (list_to_map d)) ∧
  (NoDup (used_items d).*1 ∧
   list_to_map (used_items d) = used_reservations (list_to_map d)).
Proof.
  intros Hd.
  rewrite unused_items_filter, used_items_filter, unreserved_items_filter by done.
  unfold unused_reservations, unreserved_instances, used_reservations.
  repeat split.
  - by apply NoDup_filter_keys.
  - by apply list_to_map_filter_NoDup.
  - rewrite <- list_fmap_compose.
    rewrite (list_fmap_ext _ fst (filter (λ kv, kv.2 < 0) d))
      by (by intros _ [k v] _).
    by apply NoDup_filter_keys.
  - rewrite list_to_map_fmap. f_equal. by apply list_to_map_filter_NoDup.
  - by apply NoDup_filter_keys.
  - by apply list_to_map_filter_NoDup.
Qed.


(** X2: the dictionaries iterate in the order in which their keys first
    occur in the input; [instance_diff] has the reserved keys first and
    then the keys that only run; a bucket keeps the order of
    [instance_diff]. *)
Theorem dictionaries_keep_first_occurrence_order (input : Input) :
  (running_items (all_instances input)).*1
  = first_occurrences
      (instance_key <$> filter (λ i, is_spot i = false) (all_instances input)) ∧
  (reserved_items (region_name input) (ReservedInstances input)).*1
  = first_occurrences (reserved_key (region_name input) <$> ReservedInstances input) ∧
  (printed_diff input).*1
  = (reserved_items (region_name input) (ReservedInstances input)).*1
    ++ filter (λ k, k ∉ (reserved_items (region_name input)
                           (ReservedInstances input)).*1)
              (running_items (all_instances input)).*1 ∧
  unused_items (printed_diff input) = filter (λ kv, 0 < kv.2) (printed_diff input) ∧
  unreserved_items (printed_diff input)
  = prod_map id Z.opp <$> filter (λ kv, kv.2 < 0) (printed_diff input) ∧
  used_items (printed_diff input) = filter (λ kv, kv.2 = 0) (printed_diff input).
Proof.
  destruct (running_items_final input) as [Hrun _].
  destruct (reserved_items_final input) as [Hres _].
  destruct (printed_diff_final input) as [Hnd _].
  split; [apply running_items_keys|]. split; [apply reserved_items_keys|].
  split; [|split; [|split]].
  - unfold printed_diff. rewrite diff_items_keys by done. f_equal.
    apply list_filter_iff. intros k. apply od_lookup_None.
  - by apply unused_items_filter.
  - by apply unreserved_items_filter.
  - by apply used_items_filter.
Qed.

Lemma list_to_map_nil_iff {V} (d : list (key * V)) :
  (list_to_map d : gmap key V) = ∅ ↔ d = [].
Proof.
  split; [|by intros ->]. destruct d as [|[k v] d]; [done|].
  rewrite list_to_map_cons. intros Hd. by apply insert_non_empty in Hd.
Qed.

Lemma foldl_add_start (a : Z) (l : list Z) :
  foldl Z.add a l = a + foldl Z.add 0 l.
Proof.
  revert a. induction l as [|x l IH]; intros a; simpl; [lia|].
  rewrite (IH (a + x)), (IH (0 + x)). lia.
Qed.

Lemma sum_values_list_to_map (d : list (key * Z)) :
  NoDup d.*1 → sum_values (list_to_map d) = foldl Z.add 0 d.*2.
Proof.
  induction d as [|[k v] d IH]; intros Hd.
  - apply sum_values_empty.
  - rewrite fmap_cons in Hd. apply NoDup_cons in Hd as [Hk Hd].
    rewrite list_to_map_cons, sum_values_insert_fresh
      by (by apply not_elem_of_list_to_map).
    rewrite fmap_cons. simpl. rewrite (foldl_add_start v), IH by done. lia.
Qed.

Lemma elem_of_unused_lines line bucket :
  line ∈ unused_lines bucket
  ↔ (bucket = [] ∧ line = "Congratulations, you have no unused reservations")
    ∨ ∃ kv, kv ∈ bucket ∧ line = unused_line kv.
Proof.
  destruct bucket as [|kv0 bucket]; unfold unused_lines.
  - rewrite list_elem_of_singleton. split; [by left|].
    intros [[_ ?]|(kv & Hkv & _)]; [done | by apply elem_of_nil in Hkv].
  - rewrite list_elem_of_fmap. split.
    + intros (kv & -> & Hkv). right. by exists kv.
    + intros [[? _]|(kv & Hkv & ->)]; [done | by exists kv].
Qed.

Lemma elem_of_unreserved_lines line bucket :
  line ∈ unreserved_lines bucket
  ↔ (bucket = [] ∧ line = "Congratulations, you have no unreserved instances")
    ∨ ∃ kv, kv ∈ bucket ∧ line = unreserved_line kv.
Proof.
  destruct bucket as [|kv0 bucket]; unfold unreserved_lines.
  - rewrite list_elem_of_singleton. split; [by left|].
    intros [[_ ?]|(kv & Hkv & _)]; [done | by apply elem_of_nil in Hkv].
  - rewrite list_elem_of_fmap. split.
    + intros (kv & -> & Hkv). right. by exists kv.
    + intros [[? _]|(kv & Hkv & ->)]; [done | by exists kv].
Qed.

Lemma elem_of_used_lines line mapping bucket :
  line ∈ used_lines mapping bucket
  ↔ (bucket = [] ∧ line = newline +:+ "No used reservations found")
    ∨ (bucket ≠ [] ∧ line = newline +:+ "Used Reservations:")
    ∨ ∃ kv, kv ∈ bucket ∧ line = used_line mapping kv.
Proof.
  destruct bucket as [|kv0 bucket]; unfold used_lines.
  - rewrite list_elem_of_singleton. split; [by left|].
    intros [[_ ?]|[[? _]|(kv & Hkv & _)]]; [done | done |].
    by apply elem_of_nil in Hkv.
  - rewrite elem_of_cons, list_elem_of_fmap. split.
    + intros [->|(kv & -> & Hkv)]; [by right; left|]. right. right. by exists kv.
    + intros [[? _]|[[_ ?]|(kv & Hkv & ->)]]; [done | by left |].
      right. by exists kv.
Qed.

Section stdout.
Variable input : Input.

Lemma elem_of_stdout line :
  line ∈ stdout input
  ↔ line ∈ unused_lines (unused_items (printed_diff input))
    ∨ line ∈ unreserved_lines (unreserved_items (printed_diff input))
    ∨ line ∈ used_lines (mapping_items (all_instances input))
                        (used_items (printed_diff input))
    ∨ line = summary_line
               (running_items (all_instances input))
               (reserved_items (region_name input) (ReservedInstances input)).
Proof.
  unfold stdout. fold (printed_diff input).
  by rewrite !elem_of_app, list_elem_of_singleton.
Qed.

Lemma unused_items_nil :
  unused_items (printed_diff input) = [] ↔ unused (reconcile input) = ∅.
Proof.
  destruct (printed_diff_final input) as [Hnd Hdiff].
  destruct (buckets_refine (printed_diff input) Hnd) as ((_ & Hb) & _).
  rewrite Hdiff in Hb. change (unused (reconcile input)) with (unused_reservations (final_diff input)).
  rewrite <- Hb.
  symmetry. apply list_to_map_nil_iff.
Qed.

Lemma unreserved_items_nil :
  unreserved_items (printed_diff input) = [] ↔ unreserved (reconcile input) = ∅.
Proof.
  destruct (printed_diff_final input) as [Hnd Hdiff].
  destruct (buckets_refine (printed_diff input) Hnd) as (_ & (_ & Hb) & _).
  rewrite Hdiff in Hb. change (unreserved (reconcile input)) with (unreserved_instances (final_diff input)).
  rewrite <- Hb.
  symmetry. apply list_to_map_nil_iff.
Qed.

Lemma used_items_nil :
  used_items (printed_diff input) = [] ↔ used (reconcile input) = ∅.
Proof.
  destruct (printed_diff_final input) as [Hnd Hdiff].
  destruct (buckets_refine (printed_diff input) Hnd) as (_ & _ & (_ & Hb)).
  rewrite Hdiff in Hb. change (used (reconcile input)) with (used_reservations (final_diff input)).
  rewrite <- Hb.
  symmetry. apply list_to_map_nil_iff.
Qed.

End stdout.

(** X3: the script prints each of its three "nothing found" lines exactly
    when the bucket is empty. *)
Theorem nothing_found_lines (input : Input) :
  ("Congratulations, you have no unused reservations" ∈ stdout input
   ↔ unused (reconcile input) = ∅) ∧
  ("Congratulations, you have no unreserved instances" ∈ stdout input
   ↔ unreserved (reconcile input) = ∅) ∧
  (newline +:+ "No used reservations found" ∈ stdout input
   ↔ used (reconcile input) = ∅).
Proof.
  rewrite <- unused_items_nil, <- unreserved_items_nil, <- used_items_nil.
  rewrite !elem_of_stdout, !elem_of_unused_lines, !elem_of_unreserved_lines,
    !elem_of_used_lines.
  unfold unused_line, unreserved_line, used_line, summary_line.
  split; [|split]; split.
  - intros [[[? _]|(? & _ & ?)]|[[[_ ?]|(? & _ & ?)]|[[[_ ?]|[[_ ?]|(? & _ & ?)]]|?]]];
      done.
  - intros Hnil. left. by left.
  - intros [[[_ ?]|(? & _ & ?)]|[[[? _]|(? & _ & ?)]|[[[_ ?]|[[_ ?]|(? & _ & ?)]]|?]]];
      done.
  - intros Hnil. right. left. by left.
  - intros [[[_ ?]|(? & _ & ?)]|[[[_ ?]|(? & _ & ?)]|[[[? _]|[[_ ?]|(? & _ & ?)]]|?]]];
      done.
  - intros Hnil. right. right. left. by left.
Qed.

(** X4: every entry of a bucket has its line in the output: an unused
    reservation with its surplus, an unreserved key with its deficit, a
    used reservation with the ids of its instances joined by commas. *)
Theorem every_bucket_entry_is_printed (input : Input) :
  (∀ k v, unused (reconcile input) !! k = Some v →
     "UNUSED RESERVATION! (" +:+ pretty v +:+ ") " +:+ k.1 +:+ " " +:+ k.2
     ∈ stdout input) ∧
  (∀ k v, unreserved (reconcile input) !! k = Some v →
     "Instance not reserved: (" +:+ pretty v +:+ ") " +:+ k.1 +:+ " " +:+ k.2
     ∈ stdout input) ∧
  (∀ k v, used (reconcile input) !! k = Some v →
     "Reserved Instances (" +:+ k.1 +:+ " " +:+ k.2 +:+ "): " +:+
     String.concat ", " (instance_list (instance_mapping (final_store input)) k)
     ∈ stdout input).
Proof.
  destruct (printed_diff_final input) as [Hnd Hdiff].
  destruct (buckets_refine (printed_diff input) Hnd)
    as ((Hu_nd & Hu) & (Hr_nd & Hr) & (Hz_nd & Hz)).
  rewrite Hdiff in Hu, Hr, Hz.
  change (unused_reservations (final_diff input)) with (unused (reconcile input)) in Hu.
  change (unreserved_instances (final_diff input))
    with (unreserved (reconcile input)) in Hr.
  change (used_reservations (final_diff input)) with (used (reconcile input)) in Hz.
  split; [|split]; intros k v Hkv; apply elem_of_stdout.
  - left. apply elem_of_unused_lines. right. exists (k, v). split; [|done].
    apply elem_of_list_to_map; [done|]. by rewrite Hu.
  - right. left. apply elem_of_unreserved_lines. right. exists (k, v).
    split; [|done]. apply elem_of_list_to_map; [done|]. by rewrite Hr.
  - right. right. left. apply elem_of_used_lines. right. right. exists (k, v).
    split.
    + apply elem_of_list_to_map; [done|]. by rewrite Hz.
    + unfold used_line, instance_list. simpl.
      destruct (mapping_items_final input) as [_ <-].
      by rewrite od_lookup_list_to_map.
Qed.





(** X6: the last line printed is the summary, with the number of running
    instances that are not spot and the sum of the reserved instance
    counts. *)
Theorem summary_is_printed_last (input : Input) :
  last (stdout input)
  = Some (newline +:+ "(" +:+
          pretty (Z.of_nat (length (filter (λ i, is_spot i = false)
                                           (all_instances input)))) +:+
          ") running on-demand instances" +:+ newline +:+
          "(" +:+ pretty (total_count (ReservedInstances input)) +:+
          ") reservations").
Proof.
  unfold stdout. rewrite !app_assoc, last_snoc. f_equal.
  unfold summary_line.
  destruct (running_items_final input) as [Hrun_nd Hrun].
  destruct (reserved_items_final input) as [Hres_nd Hres].
  rewrite <- !sum_values_list_to_map by done.
  rewrite Hrun, Hres, final_running_instances, scan_sum_values.
  unfold final_store, reserve_all.
  rewrite reserve_sum_values; [done|].
  by rewrite scan_all_concat, scan_reserved_instances.
Qed.

(** ** aws_externally_exposed.py: network ACLs *)

Section network_acls.
Import aws_externally_exposed.
Implicit Types (entry : NaclEntry) (entries : list NaclEntry)
  (cidr : option string).

Lemma scan_entry_snoc rules entries entry :
  foldl scan_entry rules (entries ++ [entry])
  = scan_entry (foldl scan_entry rules entries) entry.
Proof. by rewrite foldl_app. Qed.

(** The keys of [allow_rules], in the order the dict iterates them. *)
Lemma allow_rules_keys entries :
  (foldl scan_entry ([], ∅) entries).1.*1
  = first_occurrences (entry_cidr <$> filter allows entries).
Proof.
  induction entries as [|entry entries IH] using rev_ind; [done|].
  rewrite scan_entry_snoc, filter_app, fmap_app.
  revert IH. generalize (foldl scan_entry ([], ∅) entries). intros rules IH.
  unfold scan_entry. rewrite filter_cons, filter_nil.
  destruct (decide (RuleAction entry = Some "deny")) as [Hdeny|Hdeny].
  - rewrite decide_False by (unfold allows; congruence).
    rewrite fmap_nil, app_nil_r. apply IH.
  - destruct (decide (RuleAction entry = Some "allow")) as [Hallow|Hallow].
    + rewrite (decide_True (P := allows entry)) by done.
      cbn [fst snd]. rewrite od_store_keys, IH.
      rewrite fmap_cons, fmap_nil, first_occurrences_snoc.
      destruct (decide (entry_cidr entry ∈ entry_cidr <$> filter allows entries))
        as [Hin|Hin].
      * rewrite decide_True; [done | by apply first_occurrences_elem_of].
      * rewrite decide_False; [done | by rewrite first_occurrences_elem_of].
    + rewrite (decide_False (P := allows entry)) by done.
      rewrite fmap_nil, app_nil_r. apply IH.
Qed.

(** The elements of [deny_rules]. *)
Lemma deny_rules_elem_of entries cidr :
  cidr ∈ (foldl scan_entry ([], ∅) entries).2
  ↔ ∃ entry, entry ∈ entries ∧ denies entry ∧ entry_cidr entry = cidr.
Proof.
  induction entries as [|entry entries IH] using rev_ind.
  - simpl. split; [set_solver|]. intros (e & He & _). by apply elem_of_nil in He.
  - rewrite scan_entry_snoc.
    revert IH. generalize (foldl scan_entry ([], ∅) entries). intros rules IH.
    unfold scan_entry.
    destruct (decide (RuleAction entry = Some "deny")) as [Hdeny|Hdeny].
    + cbn [fst snd]. rewrite elem_of_union, elem_of_singleton, IH. split.
      * intros [(e & He & Hd & Hc)| ->].
        -- exists e. rewrite elem_of_app. eauto.
        -- exists entry. rewrite elem_of_app, list_elem_of_singleton. eauto.
      * intros (e & [He| ->%list_elem_of_singleton]%elem_of_app & Hd & Hc);
          [left; eauto | by right].
    + destruct (decide (RuleAction entry = Some "allow")) as [Hallow|Hallow];
        cbn [fst snd]; rewrite IH;
        (split;
         [ intros (e & He & Hd & Hc); exists e; rewrite elem_of_app; eauto
         | intros (e & [He| ->%list_elem_of_singleton]%elem_of_app & Hd & Hc);
           [eauto | done] ]).
Qed.

Lemma allow_rules_NoDup entries :
  NoDup (foldl scan_entry ([], ∅) entries).1.*1.
Proof. rewrite allow_rules_keys. apply NoDup_first_occurrences. Qed.

Lemma network_acl_rows_reported region nacl :
  network_acl_rows region nacl
  = network_acl_row region nacl <$> reported (default [] (Entries nacl)).
Proof. unfold network_acl_rows, reported. by rewrite <- list_fmap_compose. Qed.

Lemma filter_keys (denied : gset (option string))
    (d : list (option string * option Z)) :
  (filter (λ rule, rule.1 ∉ denied) d).*1 = filter (λ cidr, cidr ∉ denied) d.*1.
Proof.
  induction d as [|[k v] d IH]; [done|].
  rewrite fmap_cons, !filter_cons. simpl.
  destruct (decide (k ∉ denied)); by rewrite ?fmap_cons, IH.
Qed.

Lemma reported_first_occurrences entries :
  reported entries
  = filter (λ cidr, cidr ∉ (foldl scan_entry ([], ∅) entries).2)
      (first_occurrences (entry_cidr <$> filter allows entries)).
Proof.
  unfold reported. rewrite <- allow_rules_keys.
  apply filter_keys.
Qed.

Lemma NoDup_reported entries : NoDup (reported entries).
Proof.
  rewrite reported_first_occurrences.
  apply NoDup_filter, NoDup_first_occurrences.
Qed.

Lemma elem_of_reported entries cidr :
  cidr ∈ reported entries
  ↔ (∃ entry, entry ∈ entries ∧ allows entry ∧ entry_cidr entry = cidr)
    ∧ ¬ (∃ entry, entry ∈ entries ∧ denies entry ∧ entry_cidr entry = cidr).
Proof.
  rewrite reported_first_occurrences, list_elem_of_filter.
  rewrite first_occurrences_elem_of, list_elem_of_fmap, deny_rules_elem_of.
  split.
  - intros (Hdeny & e & -> & [Ha He]%list_elem_of_filter). split; [|done]. eauto.
  - intros ((e & He & Ha & <-) & Hdeny). split; [done|].
    exists e. by rewrite list_elem_of_filter.
Qed.


End network_acls.

(** X7: a network ACL gets one row per address block that some entry allows
    and no entry denies, whatever the rule numbers; the rows come in the
    order in which the blocks are first allowed, and no block is reported
    twice for the same ACL. *)
Theorem network_acl_reported_blocks region nacl :
  let entries := default [] (aws_externally_exposed.Entries nacl) in
  let allowed cidr :=
    ∃ entry, entry ∈ entries ∧ aws_externally_exposed.allows entry
             ∧ aws_externally_exposed.entry_cidr entry = cidr in
  let denied cidr :=
    ∃ entry, entry ∈ entries ∧ aws_externally_exposed.denies entry
             ∧ aws_externally_exposed.entry_cidr entry = cidr in
  ∃ cidrs,
    aws_externally_exposed.network_acl_rows region nacl
    = aws_externally_exposed.network_acl_row region nacl <$> cidrs
    ∧ NoDup cidrs
    ∧ (∀ cidr, cidr ∈ cidrs ↔ allowed cidr ∧ ¬ denied cidr)
    ∧ cidrs `sublist_of`
        first_occurrences
          (aws_externally_exposed.entry_cidr <$> filter aws_externally_exposed.allows entries).
Proof.
  intros entries allowed denied. exists (aws_externally_exposed.reported entries).
  split; [apply network_acl_rows_reported|].
  split; [apply NoDup_reported|].
  split; [intros cidr; apply elem_of_reported|].
  rewrite reported_first_occurrences. apply sublist_filter.
Qed.



(** The allow rule numbered 100 comes before the deny rule numbered 200, and
    the block is still not reported. *)
Example nacl_allow_first_rows :
  aws_externally_exposed.network_acl_rows "eu-west-1"
    aws_externally_exposed.nacl_allow_first
  = [["Network ACL"; "acl-1"; "N/A"; "Allows ::/0"; "eu-west-1"]].
Proof. by vm_compute. Qed.
